(** * HybridNets: the colour-threshold segmentation script

    A shallow embedding of [scripts/segmentation_script.py].  The script reads
    every [.jpg] of the [input] directory, thresholds its HSV conversion
    against two colour ranges, cleans each mask by a morphological opening and
    closing, paints the mask in a solid colour and writes the two paintings
    under [output/lanes] and [output/roads].

    The file has two parts.  Module [Img] holds the array code ([make_mask],
    [save_mask_as_color]) together with the OpenCV and NumPy operations it
    calls, written out on lists of rows.  Module [Batch] holds the code that
    touches the file system ([ensure_dirs], [process_image], [main]) as state
    passing over a world made of a path-indexed store and the two output
    streams the script produces (standard output, the [imwrite] calls).

    Module [Yolo] holds the per-file part of the second script,
    [scripts/yolo_to_bdd annotations.py]: the lines of a label file become
    the objects of a frame. *)

From Stdlib Require Import ZArith String OrderedTypeEx.
From stdpp Require Import base list strings gmap sorting.

Local Open Scope Z_scope.

(* ===================================================================== *)
(** ** Arrays *)
(* ===================================================================== *)

Module Img.

(** A three-channel [uint8] sample, an [h x w x 3] array as its list of rows,
    and a single-channel [h x w] array ([inRange] and the morphology return
    these).  Channel values are integers; what is stored in a [uint8] array is
    in [0, 255]. *)
Definition Pixel : Type := Z * Z * Z.
Definition Image : Type := list (list Pixel).
Definition Mask : Type := list (list Z).

Definition is_uint8 (v : Z) : bool := (0 <=? v) && (v <=? 255).

Definition pixel_ok (p : Pixel) : bool :=
  let '(c0, c1, c2) := p in is_uint8 c0 && is_uint8 c1 && is_uint8 c2.

(** The two values of a mask that [inRange] made. *)
Definition binary (v : Z) : Prop := v = 0 ∨ v = 255.

(** [a.shape[:2]]: the number of rows and the length of a row. *)
Definition shape {A} (a : list (list A)) : nat * nat :=
  (length a, length (hd [] a)).

(** Every array NumPy or OpenCV hands out is rectangular. *)
Definition rect {A} (a : list (list A)) : bool :=
  forallb (λ row, Nat.eqb (length row) (snd (shape a))) a.

(** [a[i, j]] for indices inside the array. *)
Definition at2 {A} (a : list (list A)) (i j : nat) : option A :=
  a !! i ≫= λ row, row !! j.

(** *** Constants of the script *)

Definition WHITE : Pixel := (255, 255, 255).
Definition GREY : Pixel := (128, 128, 128).
Definition BLACK : Pixel := (0, 0, 0).

Definition LANE_LOWER : Pixel := (20, 40, 120).
Definition LANE_UPPER : Pixel := (35, 255, 255).
Definition ROAD_LOWER : Pixel := (125, 40, 120).
Definition ROAD_UPPER : Pixel := (160, 255, 255).

(** *** [cv2.getStructuringElement] *)

Inductive MorphShapes := MORPH_RECT | MORPH_CROSS | MORPH_ELLIPSE.

(** The nearest integer to [c * sqrt (n / r^2)], which is how OpenCV sizes
    the rows of an ellipse ([0] when [r = 0]). *)
Definition ellipse_half_width (c r n : Z) : Z :=
  if r =? 0 then 0 else (Z.sqrt (4 * c * c * n) / r + 1) / 2.

(** Columns [[j1, j2)] of row [i] that belong to the element; the anchor is
    the centre [(w / 2, h / 2)]. *)
Definition element_row_span (sh : MorphShapes) (w h i : Z) : Z * Z :=
  let sh := if (w =? 1) && (h =? 1) then MORPH_RECT else sh in
  match sh with
  | MORPH_RECT => (0, w)
  | MORPH_CROSS => if i =? h / 2 then (0, w) else (w / 2, w / 2 + 1)
  | MORPH_ELLIPSE =>
      let r := h / 2 in
      let c := w / 2 in
      let dy := i - r in
      if Z.abs dy <=? r then
        let dx := ellipse_half_width c r (r * r - dy * dy) in
        (Z.max (c - dx) 0, Z.min (c + dx + 1) w)
      else (0, 0)
  end.

Definition getStructuringElement (sh : MorphShapes) (ksize : Z * Z) : Mask :=
  let '(w, h) := ksize in
  (λ i : Z,
     let '(j1, j2) := element_row_span sh w h i in
     (λ j : Z, if (j1 <=? j) && (j <? j2) then 1 else 0) <$> seqZ 0 w)
  <$> seqZ 0 h.

(** Morphology kernel. *)
Definition KERNEL : Mask := getStructuringElement MORPH_ELLIPSE (3, 3).

(** *** [cv2.inRange] *)

Definition in_bounds (lowerb upperb px : Pixel) : bool :=
  let '(l0, l1, l2) := lowerb in
  let '(u0, u1, u2) := upperb in
  let '(c0, c1, c2) := px in
  (l0 <=? c0) && (c0 <=? u0) &&
  (l1 <=? c1) && (c1 <=? u1) &&
  (l2 <=? c2) && (c2 <=? u2).

Definition inRange (src : Image) (lowerb upperb : Pixel) : Mask :=
  fmap (M := list) (fmap (M := list)
    (λ px, if in_bounds lowerb upperb px then 255 else 0)) src.

(** *** [cv2.erode], [cv2.dilate], [cv2.morphologyEx] *)

(** Offsets [(dy, dx)], relative to the central anchor, of the non-zero
    entries of a structuring element. *)
Definition element_offsets (kernel : Mask) : list (Z * Z) :=
  let ay := Z.of_nat (length kernel) / 2 in
  let ax := Z.of_nat (length (hd [] kernel)) / 2 in
  mjoin (imap (λ i row,
    mjoin (imap (λ j v,
      if v =? 0 then [] else [(Z.of_nat i - ay, Z.of_nat j - ax)]) row))
    kernel).

(** A read at any integer position; positions outside the array read the
    constant border value. *)
Definition read (src : Mask) (border : Z) (y x : Z) : Z :=
  if (0 <=? y) && (0 <=? x) then
    default border (at2 src (Z.to_nat y) (Z.to_nat x))
  else border.

(** One pass of a morphological filter: every output sample combines, with
    [op], the samples under the element.  With the default border of the
    morphology functions, erosion reads [255] outside the array and dilation
    reads [0], so that the outside never decides a minimum or a maximum. *)
Definition morph_pass (op : Z → Z → Z) (border : Z)
    (kernel : Mask) (src : Mask) : Mask :=
  imap (λ i row,
    imap (λ j _,
      foldr op border
        ((λ d : Z * Z, read src border (Z.of_nat i + d.1) (Z.of_nat j + d.2))
           <$> element_offsets kernel)) row) src.

Definition erode (src kernel : Mask) (iterations : nat) : Mask :=
  Nat.iter iterations (morph_pass Z.min 255 kernel) src.

Definition dilate (src kernel : Mask) (iterations : nat) : Mask :=
  Nat.iter iterations (morph_pass Z.max 0 kernel) src.

Inductive MorphTypes := MORPH_ERODE | MORPH_DILATE | MORPH_OPEN | MORPH_CLOSE.

Definition morphologyEx (src : Mask) (op : MorphTypes) (kernel : Mask)
    (iterations : nat) : Mask :=
  match op with
  | MORPH_ERODE => erode src kernel iterations
  | MORPH_DILATE => dilate src kernel iterations
  | MORPH_OPEN => dilate (erode src kernel iterations) kernel iterations
  | MORPH_CLOSE => erode (dilate src kernel iterations) kernel iterations
  end.

(** The element centred at [(ci, cj)] reaches the position [(i, j)]. *)
Definition covers (kernel : Mask) (ci cj i j : nat) : Prop :=
  ∃ d, d ∈ element_offsets kernel
       ∧ Z.of_nat i = Z.of_nat ci + d.1 ∧ Z.of_nat j = Z.of_nat cj + d.2.

(** *** [make_mask] *)

Definition make_mask (hsv_img : Image) (lower upper : Pixel) : Mask :=
  let raw := inRange hsv_img lower upper in
  let opened := morphologyEx raw MORPH_OPEN KERNEL 1 in
  let closed := morphologyEx opened MORPH_CLOSE KERNEL 1 in
  closed.

(** *** [save_mask_as_color] *)

(** [np.zeros((h, w, 3), dtype=np.uint8)]. *)
Definition zeros (h w : nat) : Image := replicate h (replicate w BLACK).

(** [mask > 0]. *)
Definition gt0 (mask : Mask) : list (list bool) :=
  fmap (M := list) (fmap (M := list) (λ v, 0 <? v)) mask.

(** A Python integer stored in a [uint8] array keeps its low eight bits
    (NumPy 1; NumPy 2 refuses an integer outside [0, 255] instead, and both
    agree on the integers inside). *)
Definition to_uint8 (v : Z) : Z := v mod 256.

Definition as_uint8 (color : Pixel) : Pixel :=
  let '(c0, c1, c2) := color in (to_uint8 c0, to_uint8 c1, to_uint8 c2).

(** Whether the sample at [(i, j)] is selected by [mask > 0]: an "on"
    sample of the mask. *)
Definition is_on (mask : Mask) (i j : nat) : bool :=
  default false (at2 (gt0 mask) i j).

(** The element centred at [(ci, cj)] fits in the on region of the mask:
    every position it reaches inside the array is on. *)
Definition fits (mask kernel : Mask) (ci cj : nat) : Prop :=
  ∀ i j, covers kernel ci cj i j → is_Some (at2 mask i j) →
         is_on mask i j = true.

(** [out[sel] = color]: the samples selected by the boolean array are
    replaced, the others are kept. *)
Definition assign_where (out : Image) (sel : list (list bool))
    (color : Pixel) : Image :=
  zip_with
    (zip_with (λ (px : Pixel) (b : bool), if b then as_uint8 color else px))
    out sel.

Definition save_mask_as_color (mask : Mask) (color : Pixel) : Image :=
  let '(h, w) := shape mask in
  let out := zeros h w in
  let out := assign_where out (gt0 mask) color in
  out.

End Img.

(* ===================================================================== *)
(** ** The file system and the batch driver *)
(* ===================================================================== *)

Module Batch.
Import Img.

(** *** Paths *)

(** A [pathlib.Path], as the list of its parts; [[]] is the current
    directory. *)
Abbreviation Path := (list string).

Definition INPUT_DIR : Path := ["input"%string].
Definition OUTPUT_DIR : Path := ["output"%string].
Definition LANES_DIR : Path := OUTPUT_DIR ++ ["lanes"%string].
Definition ROADS_DIR : Path := OUTPUT_DIR ++ ["roads"%string].

(** [str(p)], [p.parent], [p.name]. *)
Definition path_str (p : Path) : string :=
  match p with [] => "."%string | _ => String.concat "/" p end.
Definition parent (p : Path) : Path := removelast p.
Definition name (p : Path) : string := List.last p ""%string.

(** The order [sorted] uses on paths: part by part, each part by code
    points. *)
Fixpoint path_leb (p q : Path) : bool :=
  match p, q with
  | [], _ => true
  | _ :: _, [] => false
  | a :: p', b :: q' =>
      match String.compare a b with
      | Lt => true
      | Gt => false
      | Eq => path_leb p' q'
      end
  end.

Definition path_le (p q : Path) : Prop := path_leb p q = true.

#[global] Instance path_le_dec : RelDecision path_le.
Proof. intros p q. unfold path_le. apply _. Defined.

Definition sorted (l : list Path) : list Path := merge_sort path_le l.

(** [fnmatch(s, "*" + suffix)]. *)
Definition ends_with (suffix s : string) : bool :=
  let n := String.length s in
  let k := String.length suffix in
  (k <=? n)%nat && String.eqb (String.substring (n - k) k s) suffix.

(** *** The store *)

Inductive Node :=
  | Dir
  | File (content : list Byte.byte).

(** Every existing path with what it holds.  The current directory [[]]
    always exists and is a directory. *)
Abbreviation FS := (gmap Path Node).

Definition path_exists (fs : FS) (p : Path) : bool :=
  match p with
  | [] => true
  | _ => bool_decide (is_Some (fs !! p))
  end.

Definition is_dir (fs : FS) (p : Path) : bool :=
  match p with
  | [] => true
  | _ => match fs !! p with Some Dir => true | _ => false end
  end.

Inductive OSError := FileNotFoundError | FileExistsError | NotADirectoryError.

(** [os.mkdir(p)]. *)
Definition os_mkdir (p : Path) (fs : FS) : OSError + FS :=
  if negb (path_exists fs (parent p)) then inl FileNotFoundError
  else if negb (is_dir fs (parent p)) then inl NotADirectoryError
  else if path_exists fs p then inl FileExistsError
  else inr (<[p := Dir]> fs).

(** [Path.mkdir(parents=False, exist_ok=...)]. *)
Definition mkdir_flat (p : Path) (exist_ok : bool) (fs : FS) : OSError + FS :=
  match os_mkdir p fs with
  | inr fs' => inr fs'
  | inl FileNotFoundError => inl FileNotFoundError
  | inl e => if negb exist_ok || negb (is_dir fs p) then inl e else inr fs
  end.

(** [Path.mkdir(parents=True, exist_ok=...)], by recursion on the parts of
    the path, last part first: a missing parent is made with
    [parents=True, exist_ok=True], then the path itself without [parents]. *)
Fixpoint mkdir_parents (rparts : list string) (exist_ok : bool) (fs : FS)
    : OSError + FS :=
  let p := reverse rparts in
  match os_mkdir p fs with
  | inr fs' => inr fs'
  | inl FileNotFoundError =>
      match rparts with
      | [] => inl FileNotFoundError
      | _ :: rparent =>
          match mkdir_parents rparent true fs with
          | inl e => inl e
          | inr fs1 => mkdir_flat p exist_ok fs1
          end
      end
  | inl e => if negb exist_ok || negb (is_dir fs p) then inl e else inr fs
  end.

Definition mkdir (p : Path) (parents exist_ok : bool) (fs : FS)
    : OSError + FS :=
  if parents then mkdir_parents (reverse p) exist_ok fs
  else mkdir_flat p exist_ok fs.

(** The only change from [fs] to [fs'] is that some paths satisfying [P],
    absent from [fs], are directories of [fs']. *)
Definition grows (fs fs' : FS) (P : Path → Prop) : Prop :=
  ∀ q, fs' !! q = fs !! q
       ∨ (fs !! q = None ∧ fs' !! q = Some Dir ∧ P q).

(** [dir.glob("*" + suffix)]: the entries directly inside [dir] whose name
    matches, in the order the store lists them; nothing when [dir] is not a
    directory. *)
Definition glob (fs : FS) (dir : Path) (suffix : string) : list Path :=
  if is_dir fs dir then
    filter (λ p, p ≠ [] ∧ parent p = dir ∧ ends_with suffix (name p) = true)
      (elements (dom fs))
  else [].

(** *** The world and its monad *)

(** What a run can change or produce: the store, the lines printed, and the
    calls made to [cv2.imwrite] (file name and array), both in order. *)
Record World := mkWorld {
  fs : gmap Path Node;
  stdout : list string;
  imwrites : list (Path * Image);
}.

Inductive Result (A : Type) :=
  | Returned (a : A)
  | Raised (e : OSError).
Arguments Returned {A} a.
Arguments Raised {A} e.

Definition M (A : Type) : Type := World → Result A * World.

Definition ret {A} (a : A) : M A := λ w, (Returned a, w).

Definition bind {A B} (k : A → M B) (m : M A) : M B :=
  λ w, match m w with
       | (Returned a, w') => k a w'
       | (Raised e, w') => (Raised e, w')
       end.

#[global] Instance M_ret : MRet M := @ret.
#[global] Instance M_bind : MBind M := @bind.

Fixpoint for_each {A} (l : list A) (body : A → M unit) : M unit :=
  match l with
  | [] => ret tt
  | x :: l' => body x;; for_each l' body
  end.

Definition print (line : string) : M unit :=
  λ w, (Returned tt, mkWorld (fs w) (stdout w ++ [line]) (imwrites w)).

Definition lift_fs (op : FS → OSError + FS) : M unit :=
  λ w, match op (fs w) with
       | inr fs' => (Returned tt, mkWorld fs' (stdout w) (imwrites w))
       | inl e => (Raised e, w)
       end.

Definition exists_ (p : Path) : M bool :=
  λ w, (Returned (path_exists (fs w) p), w).

Definition glob_ (dir : Path) (suffix : string) : M (list Path) :=
  λ w, (Returned (glob (fs w) dir suffix), w).

Section Codec.

(** The image codecs and the colour conversion are OpenCV's: [decode] is
    what [cv2.imread] makes of the bytes of a file ([None] when they are not
    an image), [encode] is what [cv2.imwrite] stores for an array, and
    [bgr2hsv] is the per-sample conversion of [cv2.COLOR_BGR2HSV]. *)
Variable decode : list Byte.byte → option Image.
Variable encode : Image → list Byte.byte.
Variable bgr2hsv : Pixel → Pixel.

Definition cvtColor_BGR2HSV (img : Image) : Image :=
  fmap (M := list) (fmap (M := list) bgr2hsv) img.

(** [cv2.imread(str(p), cv2.IMREAD_COLOR)]: [None] unless [p] is a file that
    decodes. *)
Definition imread_fs (fs : FS) (p : Path) : option Image :=
  match fs !! p with
  | Some (File content) => decode content
  | _ => None
  end.

Definition imread (p : Path) : M (option Image) :=
  λ w, (Returned (imread_fs (fs w) p), w).

(** [cv2.imwrite(str(p), img)]: the file is created or replaced when its
    directory exists and [p] is not itself a directory; otherwise nothing is
    stored (the call returns [False], which the script does not look at). *)
Definition imwrite_fs (p : Path) (img : Image) (fs : FS) : FS :=
  if is_dir fs (parent p) && negb (is_dir fs p)
  then <[p := File (encode img)]> fs
  else fs.

Definition imwrite (p : Path) (img : Image) : M unit :=
  λ w, (Returned tt,
        mkWorld (imwrite_fs p img (fs w)) (stdout w)
                (imwrites w ++ [(p, img)])).

(** *** The script *)

Definition ensure_dirs : M unit :=
  lift_fs (mkdir LANES_DIR true true);;
  lift_fs (mkdir ROADS_DIR true true).

Definition process_image (img_path : Path) : M unit :=
  r ← imread img_path;
  match r with
  | None =>
      print ("Warning: Could not read image: " +:+ path_str img_path)
  | Some img =>
      let hsv := cvtColor_BGR2HSV img in
      let lane_mask := make_mask hsv LANE_LOWER LANE_UPPER in
      let lane_out := save_mask_as_color lane_mask WHITE in
      let road_mask := make_mask hsv ROAD_LOWER ROAD_UPPER in
      let road_out := save_mask_as_color road_mask GREY in
      let lanes_out_path := LANES_DIR ++ [name img_path] in
      let roads_out_path := ROADS_DIR ++ [name img_path] in
      imwrite lanes_out_path lane_out;;
      imwrite roads_out_path road_out
  end.

Definition main : M Z :=
  ensure_dirs;;
  found ← exists_ INPUT_DIR;
  if negb found then
    print ("Error: Input directory not found: " +:+ path_str INPUT_DIR);;
    mret 1
  else
    paths ← glob_ INPUT_DIR ".jpg";
    let images := sorted paths in
    match images with
    | [] =>
        print ("No .jpg images found in " +:+ path_str INPUT_DIR);;
        mret 0
    | _ =>
        for_each images process_image;;
        print ("Done. Wrote lanes to '" +:+ path_str LANES_DIR
               +:+ "' and roads to '" +:+ path_str ROADS_DIR +:+ "'.");;
        mret 0
    end.

(** *** What a batch is expected to produce *)

(** The two arrays [process_image] computes from a loaded image. *)
Definition lane_output (img : Image) : Image :=
  save_mask_as_color
    (make_mask (cvtColor_BGR2HSV img) LANE_LOWER LANE_UPPER) WHITE.

Definition road_output (img : Image) : Image :=
  save_mask_as_color
    (make_mask (cvtColor_BGR2HSV img) ROAD_LOWER ROAD_UPPER) GREY.

Definition warning_line (p : Path) : string :=
  "Warning: Could not read image: " +:+ path_str p.

(** The warnings and the [imwrite] calls of a loop over [images] whose
    files are read from the store [fs]. *)
Definition expected_warnings (fs : FS) (images : list Path) : list string :=
  images ≫= λ p,
    match imread_fs fs p with
    | None => [warning_line p]
    | Some _ => []
    end.

Definition expected_writes (fs : FS) (images : list Path)
    : list (Path * Image) :=
  images ≫= λ p,
    match imread_fs fs p with
    | None => []
    | Some img => [(LANES_DIR ++ [name p], lane_output img);
                   (ROADS_DIR ++ [name p], road_output img)]
    end.

Definition readable (fs : FS) (p : Path) : bool :=
  match imread_fs fs p with Some _ => true | None => false end.

(** The store after a sequence of [imwrite] calls. *)
Definition apply_writes (fs : FS) (ws : list (Path * Image)) : FS :=
  foldl (λ fs pw, imwrite_fs pw.1 pw.2 fs) fs ws.

End Codec.

(** The three lines [main] can end with. *)
Definition error_line : string := "Error: Input directory not found: input".
Definition no_images_line : string := "No .jpg images found in input".
Definition done_line : string :=
  "Done. Wrote lanes to 'output/lanes' and roads to 'output/roads'.".

(** The paths [ensure_dirs] may create. *)
Definition output_dir (q : Path) : Prop :=
  q = OUTPUT_DIR ∨ q = LANES_DIR ∨ q = ROADS_DIR.

(** Not an entry of one of the two output directories. *)
Definition not_output_file (q : Path) : Prop :=
  ∀ n, q ≠ LANES_DIR ++ [n] ∧ q ≠ ROADS_DIR ++ [n].

(** The images the driver discovers in a store. *)
Definition discovered (fs : FS) : list Path :=
  sorted (glob fs INPUT_DIR ".jpg").

(** Emptying the two output directories: every entry below them goes, the
    directories stay. *)
Definition below (dir p : Path) : bool :=
  bool_decide (dir `prefix_of` p) && negb (bool_decide (p = dir)).

Definition kept (p : Path) : Prop :=
  below LANES_DIR p = false ∧ below ROADS_DIR p = false.

Definition clear_outputs (fs : FS) : FS :=
  filter (λ e : Path * Node, kept e.1) fs.




(** The status, the printed lines and the [imwrite] calls of a run of
    [main] that gets past [ensure_dirs], from the store it starts in. *)
Definition outcome (decode : list Byte.byte → option Image)
    (bgr2hsv : Pixel → Pixel) (fs : FS)
    : Z * list string * list (Path * Image) :=
  if negb (path_exists fs INPUT_DIR) then (1, [error_line], [])
  else
    match discovered fs with
    | [] => (0, [no_images_line], [])
    | images =>
        (0,
         expected_warnings decode fs images ++ [done_line],
         expected_writes decode bgr2hsv fs images)
    end.

End Batch.

(* ===================================================================== *)
(** ** Small stores to run the script on *)
(* ===================================================================== *)

Module Sample.
Import Img Batch.

(** A stand-in codec: a file of [n > 0] bytes decodes to a row of [n]
    samples, each in the lane range; an empty file is not an image. *)
Definition decode (content : list Byte.byte) : option Image :=
  match content with
  | [] => None
  | _ => Some [(λ _, (25, 50, 130)) <$> content]
  end.

Definition encode (img : Image) : list Byte.byte :=
  (λ _, Byte.x2a) <$> mjoin img.

Definition bgr2hsv (px : Pixel) : Pixel := px.

Definition file (p : Path) (n : nat) : Path * Node :=
  (p, File (replicate n Byte.x01)).

(** No [input] directory. *)
Definition bare : World := mkWorld ∅ [] [].

(** An [input] directory without any [.jpg]. *)
Definition no_jpg : World :=
  mkWorld (list_to_map [(INPUT_DIR, Dir);
                        file (INPUT_DIR ++ ["notes.txt"%string]) 3]) [] [].

(** Two readable images and an unreadable one. *)
Definition three : World :=
  mkWorld (list_to_map [(INPUT_DIR, Dir);
                        file (INPUT_DIR ++ ["b.jpg"%string]) 2;
                        file (INPUT_DIR ++ ["a.jpg"%string]) 0;
                        file (INPUT_DIR ++ ["c.jpg"%string]) 5]) [] [].

(** A regular file named [input]. *)
Definition input_is_file : World :=
  mkWorld (list_to_map [file INPUT_DIR 4]) [] [].

(** A directory with the name of a lane output. *)
Definition blocked : World :=
  mkWorld (list_to_map [(INPUT_DIR, Dir);
                        file (INPUT_DIR ++ ["b.jpg"%string]) 2;
                        (OUTPUT_DIR, Dir); (LANES_DIR, Dir);
                        (LANES_DIR ++ ["b.jpg"%string], Dir)]) [] [].


Definition run (w : World) : Result Z * World :=
  main decode encode bgr2hsv w.

End Sample.

(* ===================================================================== *)
(** ** The annotation converter *)
(* ===================================================================== *)

(** The per-file part of [scripts/yolo_to_bdd annotations.py]: a label file
    whose image exists and opens has its lines turned, with the size of the
    image, into the objects of one BDD100K frame. *)
Module Yolo.

Definition IMAGE_DIR : string := "../datasets/train/images".
Definition IMAGE_EXTENSION : string := ".jpg".

(** [CLASS_MAPPING]. *)
Definition CLASS_MAPPING : gmap Z string :=
  list_to_map
    [(1, "person"); (2, "object1"); (3, "car"); (4, "motorcycle");
     (5, "truck"); (6, "bycycle"); (7, "bus"); (8, "object2");
     (9, "object3")]%string.

Section Numbers.

(** Python's floats with their arithmetic, the conversion of an [int]
    operand, the parsers [int(s)] and [float(s)] ([None] for a
    [ValueError]) and [line.strip().split()] are the interpreter's. *)
Variable float : Type.
Variable fadd fsub fmul fdiv : float → float → float.
Variable of_int : Z → float.
Variable to_int : string → option Z.
Variable to_float : string → option float.
Variable fields : string → list string.

Record Box2d := mkBox2d { x1 : float; y1 : float; x2 : float; y2 : float }.

Record Attributes := mkAttributes {
  occluded : bool;
  truncated : bool;
  trafficLightColor : string;
}.

Record Object := mkObject {
  category : string;
  id : nat;
  attributes : Attributes;
  box2d : Box2d;
}.

Record Frame := mkFrame { timestamp : Z; objects : list Object }.

Record Annotation := mkAnnotation {
  name : string;
  weather : string;
  scene : string;
  timeofday : string;
  frames : list Frame;
}.

Definition yolo_to_box2d (x_center y_center width height : float)
    (img_width img_height : Z) : Box2d :=
  let abs_width := fmul width (of_int img_width) in
  let abs_height := fmul height (of_int img_height) in
  let abs_x_center := fmul x_center (of_int img_width) in
  let abs_y_center := fmul y_center (of_int img_height) in
  let x1 := fsub abs_x_center (fdiv abs_width (of_int 2)) in
  let y1 := fsub abs_y_center (fdiv abs_height (of_int 2)) in
  let x2 := fadd abs_x_center (fdiv abs_width (of_int 2)) in
  let y2 := fadd abs_y_center (fdiv abs_height (of_int 2)) in
  mkBox2d x1 y1 x2 y2.

(** The [try] block of the loop: [int(parts[0])] and then the four
    [float]s of [parts[1:]]; [None] when one of them raises. *)
Definition parse_numbers (parts : list string)
    : option (Z * (float * float * float * float)) :=
  class_no ← to_int (default ""%string (parts !! 0%nat));
  floats ← mapM to_float (drop 1 parts);
  match floats with
  | [x_center; y_center; norm_w; norm_h] =>
      Some (class_no, (x_center, y_center, norm_w, norm_h))
  | _ => None
  end.

(** The body of the loop over the lines: the object the line adds to
    [objects_list], or [None] where the body ends in [continue]. *)
Definition object_of_line (img_width img_height : Z)
    (line_idx : nat) (line : string) : option Object :=
  let parts := fields line in
  if negb (length parts =? 5)%nat then None
  else
    match parse_numbers parts with
    | None => None
    | Some (class_no, (x_center, y_center, norm_w, norm_h)) =>
        match CLASS_MAPPING !! class_no with
        | None => None
        | Some category =>
            let box :=
              yolo_to_box2d x_center y_center norm_w norm_h
                img_width img_height in
            Some (mkObject category line_idx
                    (mkAttributes false false "none") box)
        end
    end.

(** [for line_idx, line in enumerate(f)], from the index [line_idx] on. *)
Fixpoint read_objects (img_width img_height : Z) (line_idx : nat)
    (lines : list string) (objects_list : list Object) : list Object :=
  match lines with
  | [] => objects_list
  | line :: rest =>
      match object_of_line img_width img_height line_idx line with
      | None => read_objects img_width img_height (S line_idx) rest objects_list
      | Some object_dict =>
          read_objects img_width img_height (S line_idx) rest
            (objects_list ++ [object_dict])
      end
  end.

(** [os.path.join(IMAGE_DIR, base_name + IMAGE_EXTENSION)]. *)
Definition image_path (base_name : string) : string :=
  IMAGE_DIR +:+ "/" +:+ base_name +:+ IMAGE_EXTENSION.

(** The body of the loop over the label files, for the file of base name
    [base_name] whose lines are [lines]: the structure it dumps to
    [base_name + ".json"], or [None] where the body ends in [continue] and no
    file is written.  [path_exists] is [os.path.exists] and [image_size] the
    [img.size] of [Image.open], [None] where opening raises. *)
Definition convert_file (path_exists : string → bool)
    (image_size : string → option (Z * Z))
    (base_name : string) (lines : list string) : option Annotation :=
  if negb (path_exists (image_path base_name)) then None
  else
    match image_size (image_path base_name) with
    | None => None
    | Some (img_width, img_height) =>
        let objects_list := read_objects img_width img_height 0 lines [] in
        match objects_list with
        | [] => None
        | _ =>
            Some (mkAnnotation base_name "undefined" "undefined" "undefined"
                    [mkFrame 10000 objects_list])
        end
    end.

End Numbers.

End Yolo.

Module YoloSample.

(** Stand-ins to run the converter on: rationals for floats, decimal digits
    for [int], "half" steps for [float], one character per field. *)
Definition to_int (s : string) : option Z :=
  match s with
  | String c EmptyString =>
      let n := Z.of_nat (Ascii.nat_of_ascii c) - 48 in
      if (0 <=? n) && (n <=? 9) then Some n else None
  | _ => None
  end.

Definition fields (line : string) : list string :=
  (λ c, String c EmptyString)
    <$> filter (λ c, c ≠ Ascii.ascii_of_nat 32) (list_ascii_of_string line).

(** The images of the sample: [img.jpg] opens as a 640 by 480 picture,
    [torn.jpg] is there but does not open, and nothing else exists. *)
Definition path_exists (p : string) : bool :=
  bool_decide (p = Yolo.image_path "img" ∨ p = Yolo.image_path "torn").

Definition image_size (p : string) : option (Z * Z) :=
  if bool_decide (p = Yolo.image_path "img") then Some (640, 480) else None.

Definition convert (base_name : string) (lines : list string) :=
  Yolo.convert_file Z Z.add Z.sub Z.mul Z.div id to_int to_int fields
    path_exists image_size base_name lines.

End YoloSample.

Example KERNEL_value : Img.KERNEL = [[0; 1; 0]; [1; 1; 1]; [0; 1; 0]].
Proof. reflexivity. Qed.

Example save_small :
  Img.save_mask_as_color [[0; 255]; [7; 0]] Img.GREY
  = [[(0, 0, 0); (128, 128, 128)]; [(128, 128, 128); (0, 0, 0)]].
Proof. reflexivity. Qed.

Example run_three :
  (Sample.run Sample.three).1 = Batch.Returned 0
  ∧ Batch.stdout (Sample.run Sample.three).2
    = ["Warning: Could not read image: input/a.jpg"%string;
       Batch.done_line]
  ∧ fst <$> Batch.imwrites (Sample.run Sample.three).2
    = [["output"; "lanes"; "b.jpg"]; ["output"; "roads"; "b.jpg"];
       ["output"; "lanes"; "c.jpg"]; ["output"; "roads"; "c.jpg"]]%string.
Proof. vm_compute. done. Qed.

Example run_bare :
  (Sample.run Sample.bare).1 = Batch.Returned 1
  ∧ Batch.stdout (Sample.run Sample.bare).2 = [Batch.error_line].
Proof. vm_compute. done. Qed.

Example run_input_is_file :
  (Sample.run Sample.input_is_file).1 = Batch.Returned 0
  ∧ Batch.stdout (Sample.run Sample.input_is_file).2
    = [Batch.no_images_line]
  ∧ Batch.imwrites (Sample.run Sample.input_is_file).2 = [].
Proof. vm_compute. done. Qed.

Example run_output_is_file :
  (Sample.run (Batch.mkWorld {[ Batch.OUTPUT_DIR := Batch.File [] ]} [] [])).1
  = Batch.Raised Batch.NotADirectoryError.
Proof. vm_compute. done. Qed.

Example yolo_small :
  (λ a, (λ o, (Yolo.category _ o, Yolo.id _ o, Yolo.x1 _ (Yolo.box2d _ o),
               Yolo.x2 _ (Yolo.box2d _ o)))
          <$> (Yolo.frames _ a ≫= Yolo.objects _))
    <$> YoloSample.convert "img"
          ["3 1 1 1 1"; "oops"; "0 1 1 1 1"; "7 2 2 4 4"]%string
  = Some [("car"%string, 0%nat, 320, 960); ("bus"%string, 3%nat, 0, 2560)].
Proof. vm_compute. reflexivity. Qed.

Example yolo_no_image :
  YoloSample.convert "gone" ["3 1 1 1 1"]%string = None
  ∧ YoloSample.convert "torn" ["3 1 1 1 1"]%string = None
  ∧ YoloSample.convert "img" ["oops"]%string = None.
Proof. vm_compute. done. Qed.

Example make_mask_small :
  Img.make_mask
    [[(25, 50, 130); (25, 50, 130); (25, 50, 130)];
     [(25, 50, 130); (0, 0, 0); (25, 50, 130)];
     [(25, 50, 130); (25, 50, 130); (0, 0, 0)]]
    Img.LANE_LOWER Img.LANE_UPPER
  = [[255; 255; 255]; [255; 255; 255]; [255; 255; 255]].
Proof. vm_compute. reflexivity. Qed.

(* ===================================================================== *)
(** ** Facts about the array code *)
(* ===================================================================== *)

Section ArrayFacts.
Import Img.

Lemma at2_Some {A} (a : list (list A)) i j x :
  at2 a i j = Some x ↔ ∃ row, a !! i = Some row ∧ row !! j = Some x.
Proof.
  unfold at2. destruct (a !! i) as [row|]; simpl.
  - split; [eauto | by intros (? & [= <-] & ?)].
  - split; [done | by intros (? & ? & ?)].
Qed.

Lemma at2_fmap {A B} (f : A → B) (a : list (list A)) i j :
  at2 (fmap (M := list) (fmap (M := list) f) a) i j = f <$> at2 a i j.
Proof.
  unfold at2. rewrite list_lookup_fmap.
  destruct (a !! i) as [row|]; simpl; [apply list_lookup_fmap | done].
Qed.

Lemma at2_imap {A B} (g : nat → nat → A → B) (a : list (list A)) i j :
  at2 (imap (λ i row, imap (g i) row) a) i j = g i j <$> at2 a i j.
Proof.
  unfold at2. rewrite list_lookup_imap.
  destruct (a !! i) as [row|]; simpl; [apply list_lookup_imap | done].
Qed.

Lemma shape_fmap {A B} (f : A → B) (a : list (list A)) :
  shape (fmap (M := list) (fmap (M := list) f) a) = shape a.
Proof. destruct a; unfold shape; simpl; by rewrite ?length_fmap. Qed.

Lemma shape_imap {A B} (g : nat → nat → A → B) (a : list (list A)) :
  shape (imap (λ i row, imap (g i) row) a) = shape a.
Proof. destruct a; unfold shape; simpl; by rewrite ?length_imap. Qed.

Lemma rect_spec {A} (a : list (list A)) :
  rect a = true ↔ ∀ i row, a !! i = Some row → length row = snd (shape a).
Proof.
  unfold rect. rewrite forallb_forall. split.
  - intros H i row Hi. apply Nat.eqb_eq, H, list_elem_of_In.
    by eapply list_elem_of_lookup_2.
  - intros H row Hin. apply Nat.eqb_eq.
    apply list_elem_of_In, list_elem_of_lookup in Hin as [i Hi]. eauto.
Qed.

Lemma rect_fmap {A B} (f : A → B) (a : list (list A)) :
  rect a = true → rect (fmap (M := list) (fmap (M := list) f) a) = true.
Proof.
  rewrite !rect_spec, shape_fmap. intros H i row.
  rewrite list_lookup_fmap. destruct (a !! i) as [r|] eqn:E; [|done].
  intros [= <-]. rewrite length_fmap. eauto.
Qed.

Lemma rect_imap {A B} (g : nat → nat → A → B) (a : list (list A)) :
  rect a = true → rect (imap (λ i row, imap (g i) row) a) = true.
Proof.
  rewrite !rect_spec, shape_imap. intros H i row.
  rewrite list_lookup_imap. destruct (a !! i) as [r|] eqn:E; [|done].
  intros [= <-]. rewrite length_imap. eauto.
Qed.

(** Inside a rectangular array the indices are below its shape, and the
    other way round. *)
Lemma at2_rect_lt {A} (a : list (list A)) i j :
  rect a = true →
  is_Some (at2 a i j) ↔ (i < fst (shape a))%nat ∧ (j < snd (shape a))%nat.
Proof.
  intros Hr. pose proof (proj1 (rect_spec a) Hr) as Hlen. split.
  - intros [x (row & Hi & Hj)%at2_Some]. split.
    + by eapply lookup_lt_Some.
    + rewrite <- (Hlen _ _ Hi). by eapply lookup_lt_Some.
  - intros [Hi Hj]. simpl in Hi.
    destruct (lookup_lt_is_Some_2 a i Hi) as [row Hrow].
    rewrite <- (Hlen _ _ Hrow) in Hj.
    destruct (lookup_lt_is_Some_2 row j Hj) as [x Hx].
    exists x. apply at2_Some. eauto.
Qed.

Lemma shape_eq_at2 {A B} (a : list (list A)) (b : list (list B)) :
  rect a = true → rect b = true → shape a = shape b →
  ∀ i j, is_Some (at2 a i j) ↔ is_Some (at2 b i j).
Proof.
  intros Ha Hb Hs i j. rewrite (at2_rect_lt a), (at2_rect_lt b) by done.
  by rewrite Hs.
Qed.

End ArrayFacts.

(* ===================================================================== *)
(** ** Thresholding and painting *)
(* ===================================================================== *)

Section Threshold.
Import Img.

Lemma is_on_spec (m : Mask) i j :
  is_on m i j = true ↔ ∃ v, at2 m i j = Some v ∧ 0 < v.
Proof.
  unfold is_on, gt0. rewrite at2_fmap.
  destruct (at2 m i j) as [v|]; simpl.
  - rewrite Z.ltb_lt. split; [eauto | by intros (? & [= <-] & ?)].
  - split; [done | by intros (? & ? & ?)].
Qed.

Lemma at2_inRange (src : Image) lo up i j :
  at2 (inRange src lo up) i j
  = (λ px, if in_bounds lo up px then 255 else 0) <$> at2 src i j.
Proof. apply at2_fmap. Qed.

Lemma in_bounds_spec l0 l1 l2 u0 u1 u2 c0 c1 c2 :
  in_bounds (l0, l1, l2) (u0, u1, u2) (c0, c1, c2) = true
  ↔ (l0 <= c0 <= u0) ∧ (l1 <= c1 <= u1) ∧ (l2 <= c2 <= u2).
Proof. unfold in_bounds. rewrite !andb_true_iff, !Z.leb_le. lia. Qed.

(** C1.  The mask [make_mask] hands to the morphology is [inRange] of its
    arguments, of the shape of the image; the sample of that mask at any
    position of the image is 255 or 0, and it is on exactly when each of the
    three channels of the pixel lies within its inclusive bounds; hence on
    when all channels are strictly inside, and 0 when some channel is
    strictly outside. *)
Theorem raw_mask_on_iff_in_range
    (hsv : Image) (l0 l1 l2 u0 u1 u2 c0 c1 c2 : Z) (i j : nat) :
  at2 hsv i j = Some (c0, c1, c2) →
  let lower := (l0, l1, l2) in
  let upper := (u0, u1, u2) in
  let raw := inRange hsv lower upper in
  make_mask hsv lower upper
  = morphologyEx (morphologyEx raw MORPH_OPEN KERNEL 1)
      MORPH_CLOSE KERNEL 1
  ∧ shape raw = shape hsv
  ∧ (at2 raw i j = Some 255 ∨ at2 raw i j = Some 0)
  ∧ (is_on raw i j = true
     ↔ (l0 <= c0 <= u0) ∧ (l1 <= c1 <= u1) ∧ (l2 <= c2 <= u2))
  ∧ ((l0 < c0 < u0) ∧ (l1 < c1 < u1) ∧ (l2 < c2 < u2) →
     is_on raw i j = true)
  ∧ (c0 < l0 ∨ u0 < c0 ∨ c1 < l1 ∨ u1 < c1 ∨ c2 < l2 ∨ u2 < c2 →
     is_on raw i j = false ∧ at2 raw i j = Some 0).
Proof.
  intros Hpx lower upper raw.
  assert (Hraw : at2 raw i j
                 = Some (if in_bounds lower upper (c0, c1, c2)
                         then 255 else 0)).
  { unfold raw. by rewrite at2_inRange, Hpx. }
  assert (Hon : is_on raw i j = true
                ↔ (l0 <= c0 <= u0) ∧ (l1 <= c1 <= u1) ∧ (l2 <= c2 <= u2)).
  { rewrite is_on_spec, Hraw, <- in_bounds_spec. fold lower upper.
    destruct (in_bounds lower upper (c0, c1, c2)).
    - split; [done | intros _; eexists; split; [done | lia]].
    - split; [intros (v & [= <-] & ?); lia | done]. }
  split; [reflexivity |]. split; [apply shape_fmap |].
  split; [rewrite Hraw; destruct (in_bounds _ _ _); auto |].
  split; [exact Hon |]. split.
  - intros ?. apply Hon. lia.
  - intros Hout.
    assert (Hnb : in_bounds lower upper (c0, c1, c2) = false).
    { apply not_true_is_false. unfold lower, upper.
      rewrite in_bounds_spec. lia. }
    split.
    + apply not_true_is_false. rewrite Hon. lia.
    + by rewrite Hraw, Hnb.
Qed.

Lemma raw_mask_on_iff_in_range_witness :
  at2 [[(25, 50, 130); (0, 0, 0)]] 0 0 = Some (25, 50, 130)
  ∧ is_on (inRange [[(25, 50, 130); (0, 0, 0)]] LANE_LOWER LANE_UPPER) 0 0
    = true.
Proof.
  split; [reflexivity |].
  pose proof (raw_mask_on_iff_in_range [[(25, 50, 130); (0, 0, 0)]]
                20 40 120 35 255 255 25 50 130 0 0 eq_refl) as H.
  simpl in H. destruct H as (_ & _ & _ & _ & H & _). apply H. lia.
Defined.

End Threshold.

Section Painter.
Import Img.

Lemma at2_zip_with {A B C} (f : A → B → C)
    (a : list (list A)) (b : list (list B)) i j :
  at2 (zip_with (zip_with f) a b) i j
  = x ← at2 a i j; y ← at2 b i j; Some (f x y).
Proof.
  unfold at2. rewrite lookup_zip_with.
  destruct (a !! i) as [ra|]; simpl; [|done].
  destruct (b !! i) as [rb|]; simpl.
  - rewrite lookup_zip_with. by destruct (ra !! j).
  - by destruct (ra !! j).
Qed.

Lemma at2_zeros h w i j :
  (i < h)%nat → (j < w)%nat → at2 (zeros h w) i j = Some BLACK.
Proof.
  intros Hi Hj. unfold at2, zeros.
  rewrite (lookup_replicate_2 _ _ _ Hi). simpl.
  by apply lookup_replicate_2.
Qed.

Lemma as_uint8_ok color : pixel_ok color = true → as_uint8 color = color.
Proof.
  destruct color as [[c0 c1] c2]. unfold pixel_ok, is_uint8, as_uint8, to_uint8.
  rewrite !andb_true_iff, !Z.leb_le. intros ?.
  by rewrite !Z.mod_small by lia.
Qed.

Lemma shape_save mask color :
  shape (save_mask_as_color mask color) = shape mask.
Proof.
  unfold save_mask_as_color, shape, assign_where, gt0, zeros.
  destruct mask as [|row rest]; [done |]. simpl.
  rewrite !length_zip_with, !length_fmap, !length_replicate. f_equal; lia.
Qed.

Lemma save_unfold mask color :
  save_mask_as_color mask color
  = assign_where (zeros (shape mask).1 (shape mask).2) (gt0 mask) color.
Proof. reflexivity. Qed.

(** The painter, sample by sample. *)
Lemma at2_save mask color i j :
  rect mask = true →
  at2 (save_mask_as_color mask color) i j
  = (λ v, if 0 <? v then as_uint8 color else BLACK) <$> at2 mask i j.
Proof.
  intros Hr. rewrite save_unfold.
  destruct (shape mask) as [h w] eqn:Hs. unfold assign_where, gt0. simpl.
  rewrite at2_zip_with, at2_fmap.
  destruct (at2 mask i j) as [v|] eqn:Hv; simpl.
  - assert (is_Some (at2 mask i j)) as Hin by (by rewrite Hv).
    apply (at2_rect_lt mask i j Hr) in Hin. rewrite Hs in Hin.
    destruct Hin as [Hi Hj]. rewrite (at2_zeros h w i j Hi Hj). simpl.
    by destruct (0 <? v).
  - by destruct (at2 (zeros h w) i j).
Qed.

Lemma rect_save mask color :
  rect mask = true → rect (save_mask_as_color mask color) = true.
Proof.
  intros Hr. apply rect_spec. intros i row Hi. rewrite shape_save.
  pose proof (proj1 (rect_spec mask) Hr) as Hlen.
  revert Hi. rewrite save_unfold. unfold assign_where, gt0, zeros.
  destruct (shape mask) as [h w] eqn:Hs. simpl. rewrite lookup_zip_with.
  destruct (replicate h (replicate w BLACK) !! i) as [r0|] eqn:E0; [|done].
  apply lookup_replicate in E0 as [-> _]. simpl.
  rewrite list_lookup_fmap.
  destruct (mask !! i) as [mr|] eqn:Em; [|done]. simpl. intros [= <-].
  rewrite length_zip_with, length_fmap, length_replicate.
  rewrite (Hlen _ _ Em). simpl. lia.
Qed.

(** C3.  For a rectangular mask and a colour of three [uint8] channels, the
    painted image has the shape of the mask and a sample wherever the mask
    has one; every on sample of the mask is painted exactly the colour,
    every other sample is exactly black, and so every sample of the image is
    the colour or black. *)
Theorem painter_two_colours (mask : Mask) (color : Pixel) :
  rect mask = true →
  pixel_ok color = true →
  let out := save_mask_as_color mask color in
  shape out = shape mask
  ∧ rect out = true
  ∧ (∀ i j, is_Some (at2 out i j) ↔ is_Some (at2 mask i j))
  ∧ (∀ i j, is_on mask i j = true → at2 out i j = Some color)
  ∧ (∀ i j, is_Some (at2 mask i j) → is_on mask i j = false →
            at2 out i j = Some BLACK)
  ∧ (∀ i j px, at2 out i j = Some px → px = color ∨ px = BLACK).
Proof.
  intros Hr Hc out.
  assert (Hat : ∀ i j, at2 out i j
                = (λ v, if 0 <? v then color else BLACK) <$> at2 mask i j).
  { intros i j. unfold out. rewrite at2_save by done.
    by rewrite as_uint8_ok. }
  split; [apply shape_save |]. split; [by apply rect_save |].
  split; [intros i j; rewrite Hat; apply fmap_is_Some |].
  split; [| split].
  - intros i j (v & Hv & Hpos)%is_on_spec. rewrite Hat, Hv. simpl.
    by rewrite (proj2 (Z.ltb_lt 0 v) Hpos).
  - intros i j [v Hv] Hoff. rewrite Hat, Hv. simpl.
    destruct (0 <? v) eqn:E; [|done].
    apply Z.ltb_lt in E.
    assert (is_on mask i j = true) by (apply is_on_spec; eauto).
    congruence.
  - intros i j px. rewrite Hat.
    destruct (at2 mask i j) as [v|]; simpl; [|done].
    intros [= <-]. destruct (0 <? v); auto.
Qed.

Lemma painter_two_colours_witness :
  save_mask_as_color [[0; 255]; [255; 0]] GREY
  = [[BLACK; GREY]; [GREY; BLACK]]
  ∧ at2 (save_mask_as_color [[0; 255]; [255; 0]] GREY) 0 1 = Some GREY.
Proof.
  split; [reflexivity |].
  pose proof (painter_two_colours [[0; 255]; [255; 0]] GREY
                eq_refl eq_refl) as (_ & _ & _ & H & _).
  apply (H 0%nat 1%nat). reflexivity.
Defined.

(** C10.  The painter reads the mask through [mask > 0]: a sample of value
    [v] is painted the colour when [0 < v] and black otherwise.  For a
    [uint8] value that is: any non-zero value, 255 or not, gets the colour,
    and only the value 0 stays black. *)
Theorem painter_on_is_positive
    (mask : Mask) (color : Pixel) (i j : nat) (v : Z) :
  rect mask = true →
  pixel_ok color = true →
  at2 mask i j = Some v →
  let out := save_mask_as_color mask color in
  at2 out i j = Some (if 0 <? v then color else BLACK)
  ∧ (is_on mask i j = true ↔ 0 < v)
  ∧ (is_uint8 v = true → v ≠ 0 → at2 out i j = Some color)
  ∧ (v = 0 → at2 out i j = Some BLACK)
  ∧ (is_uint8 v = true → color ≠ BLACK →
     (at2 out i j = Some color ↔ v ≠ 0)
     ∧ (at2 out i j = Some BLACK ↔ v = 0)).
Proof.
  intros Hr Hc Hv out.
  assert (Hat : at2 out i j = Some (if 0 <? v then color else BLACK)).
  { unfold out. rewrite at2_save by done. by rewrite Hv, as_uint8_ok. }
  split; [exact Hat |]. split.
  { rewrite is_on_spec, Hv. split; [by intros (? & [= <-] & ?) | eauto]. }
  unfold is_uint8. rewrite andb_true_iff, !Z.leb_le. rewrite Hat.
  repeat split.
  - intros ? ?. destruct (Z.ltb_spec 0 v); [done | lia].
  - intros ->. done.
  - destruct (Z.ltb_spec 0 v); [lia | congruence].
  - intros ?. destruct (Z.ltb_spec 0 v); [done | lia].
  - destruct (Z.ltb_spec 0 v); [congruence | lia].
  - intros ->. done.
Qed.

Lemma painter_on_is_positive_witness :
  at2 (save_mask_as_color [[0; 7]; [255; 1]] WHITE) 0 1 = Some WHITE
  ∧ at2 (save_mask_as_color [[0; 7]; [255; 1]] WHITE) 0 0 = Some BLACK.
Proof.
  split.
  - pose proof (painter_on_is_positive [[0; 7]; [255; 1]] WHITE 0 1 7
                  eq_refl eq_refl eq_refl) as (_ & _ & H & _).
    apply H; [reflexivity | lia].
  - reflexivity.
Defined.

End Painter.

(* ===================================================================== *)
(** ** Morphology *)
(* ===================================================================== *)

Section FoldBounds.

Lemma foldr_min_le (b x : Z) (l : list Z) : x ∈ l → foldr Z.min b l <= x.
Proof.
  induction 1 as [x l | x y l _ IH]; simpl; lia.
Qed.

Lemma foldr_min_glb (b c : Z) (l : list Z) :
  c <= b → (∀ x, x ∈ l → c <= x) → c <= foldr Z.min b l.
Proof.
  intros Hb. induction l as [|y l IH]; simpl; intros Hl; [done |].
  apply Z.min_glb; [apply Hl; left | apply IH; intros; apply Hl; by right].
Qed.

Lemma foldr_min_border (b : Z) (l : list Z) : foldr Z.min b l <= b.
Proof. induction l; simpl; lia. Qed.

Lemma foldr_max_ge (b x : Z) (l : list Z) : x ∈ l → x <= foldr Z.max b l.
Proof.
  induction 1 as [x l | x y l _ IH]; simpl; lia.
Qed.

Lemma foldr_max_lub (b c : Z) (l : list Z) :
  b <= c → (∀ x, x ∈ l → x <= c) → foldr Z.max b l <= c.
Proof.
  intros Hb. induction l as [|y l IH]; simpl; intros Hl; [done |].
  apply Z.max_lub; [apply Hl; left | apply IH; intros; apply Hl; by right].
Qed.

Lemma foldr_max_border (b : Z) (l : list Z) : b <= foldr Z.max b l.
Proof. induction l; simpl; lia. Qed.

(** A maximum above the border value is reached by an element. *)
Lemma foldr_max_reached (b : Z) (l : list Z) :
  b < foldr Z.max b l → ∃ x, x ∈ l ∧ x = foldr Z.max b l.
Proof.
  induction l as [|y l IH]; simpl; [lia |]. intros H.
  destruct (Z.max_spec y (foldr Z.max b l)) as [[? E] | [? E]]; rewrite E in *.
  - destruct IH as (x & ? & ?); [done |]. exists x. split; [by right | done].
  - exists y. split; [left | done].
Qed.

End FoldBounds.

Section Morphology.
Import Img.

Variable kernel : Mask.

(** The structuring element is its own reflection through the anchor. *)
Hypothesis kernel_symmetric :
  ∀ d, d ∈ element_offsets kernel → (- d.1, - d.2) ∈ element_offsets kernel.

Lemma at2_morph_pass op border (src : Mask) i j :
  at2 (morph_pass op border kernel src) i j
  = (λ _, foldr op border
       ((λ d : Z * Z,
           read src border (Z.of_nat i + d.1) (Z.of_nat j + d.2))
          <$> element_offsets kernel)) <$> at2 src i j.
Proof.
  unfold morph_pass.
  exact (at2_imap (λ i j _, foldr op border
           ((λ d : Z * Z,
               read src border (Z.of_nat i + d.1) (Z.of_nat j + d.2))
              <$> element_offsets kernel)) src i j).
Qed.

Lemma shape_morph_pass op border (src : Mask) :
  shape (morph_pass op border kernel src) = shape src.
Proof. unfold morph_pass. apply shape_imap. Qed.

Lemma rect_morph_pass op border (src : Mask) :
  rect src = true → rect (morph_pass op border kernel src) = true.
Proof. unfold morph_pass. apply rect_imap. Qed.

Lemma read_inside (src : Mask) border i j v :
  at2 src i j = Some v → read src border (Z.of_nat i) (Z.of_nat j) = v.
Proof.
  intros H. unfold read.
  rewrite !(proj2 (Z.leb_le _ _)) by lia. simpl.
  by rewrite !Nat2Z.id, H.
Qed.

(** A read returns the border value or a sample of the array. *)
Lemma read_cases (src : Mask) border y x :
  read src border y x = border
  ∨ ∃ i j v, y = Z.of_nat i ∧ x = Z.of_nat j ∧ at2 src i j = Some v
             ∧ read src border y x = v.
Proof.
  unfold read. destruct (0 <=? y) eqn:Ey; [|by left].
  destruct (0 <=? x) eqn:Ex; [|by left]. simpl.
  apply Z.leb_le in Ey, Ex.
  destruct (at2 src (Z.to_nat y) (Z.to_nat x)) as [v|] eqn:E; [|by left].
  right. exists (Z.to_nat y), (Z.to_nat x), v. rewrite !Z2Nat.id by done.
  by rewrite E.
Qed.

(** Every sample under the element, read back from a position the element
    reaches, is the sample at the centre. *)
Lemma read_back (src : Mask) border i j v i' j' d :
  at2 src i j = Some v →
  Z.of_nat i' = Z.of_nat i + d.1 → Z.of_nat j' = Z.of_nat j + d.2 →
  read src border (Z.of_nat i' + - d.1) (Z.of_nat j' + - d.2) = v.
Proof.
  intros H Hi Hj.
  replace (Z.of_nat i' + - d.1) with (Z.of_nat i) by lia.
  replace (Z.of_nat j' + - d.2) with (Z.of_nat j) by lia.
  by apply read_inside.
Qed.

Lemma erode_pass_le (src : Mask) i j e :
  at2 (morph_pass Z.min 255 kernel src) i j = Some e →
  e <= 255
  ∧ ∀ d, d ∈ element_offsets kernel →
         e <= read src 255 (Z.of_nat i + d.1) (Z.of_nat j + d.2).
Proof.
  rewrite at2_morph_pass. destruct (at2 src i j); simpl; [|done].
  intros [= <-]. split; [apply foldr_min_border |].
  intros d Hd. apply foldr_min_le.
  apply (list_elem_of_fmap_2
           (λ d : Z * Z, read src 255 (Z.of_nat i + d.1) (Z.of_nat j + d.2))).
  done.
Qed.

Lemma dilate_pass_ge (src : Mask) i j e :
  at2 (morph_pass Z.max 0 kernel src) i j = Some e →
  0 <= e
  ∧ ∀ d, d ∈ element_offsets kernel →
         read src 0 (Z.of_nat i + d.1) (Z.of_nat j + d.2) <= e.
Proof.
  rewrite at2_morph_pass. destruct (at2 src i j); simpl; [|done].
  intros [= <-]. split; [apply foldr_max_border |].
  intros d Hd. apply foldr_max_ge.
  apply (list_elem_of_fmap_2
           (λ d : Z * Z, read src 0 (Z.of_nat i + d.1) (Z.of_nat j + d.2))).
  done.
Qed.

(** Opening is anti-extensive. *)
Lemma open_pass_le (src : Mask) i j v o :
  at2 src i j = Some v → 0 <= v →
  at2 (morph_pass Z.max 0 kernel (morph_pass Z.min 255 kernel src)) i j
  = Some o →
  o <= v.
Proof.
  intros Hv Hpos. rewrite at2_morph_pass.
  destruct (at2 (morph_pass Z.min 255 kernel src) i j); simpl; [|done].
  intros [= <-]. apply foldr_max_lub; [done |].
  intros x (d & -> & Hd)%list_elem_of_fmap.
  destruct (read_cases (morph_pass Z.min 255 kernel src) 0
              (Z.of_nat i + d.1) (Z.of_nat j + d.2))
    as [-> | (i' & j' & e & Hi & Hj & He & ->)]; [done |].
  destruct (erode_pass_le src i' j' e He) as [_ Hle].
  specialize (Hle _ (kernel_symmetric d Hd)). simpl in Hle.
  by rewrite (read_back src 255 i j v i' j' d) in Hle.
Qed.

(** Closing is extensive. *)
Lemma close_pass_ge (src : Mask) i j v c :
  at2 src i j = Some v → v <= 255 →
  at2 (morph_pass Z.min 255 kernel (morph_pass Z.max 0 kernel src)) i j
  = Some c →
  v <= c.
Proof.
  intros Hv Hmax. rewrite at2_morph_pass.
  destruct (at2 (morph_pass Z.max 0 kernel src) i j); simpl; [|done].
  intros [= <-]. apply foldr_min_glb; [done |].
  intros x (d & -> & Hd)%list_elem_of_fmap.
  destruct (read_cases (morph_pass Z.max 0 kernel src) 255
              (Z.of_nat i + d.1) (Z.of_nat j + d.2))
    as [-> | (i' & j' & e & Hi & Hj & He & ->)]; [done |].
  destruct (dilate_pass_ge src i' j' e He) as [_ Hge].
  specialize (Hge _ (kernel_symmetric d Hd)). simpl in Hge.
  by rewrite (read_back src 0 i j v i' j' d) in Hge.
Qed.

(** An on sample of the opened mask lies under a copy of the element that
    fits in the on region of the source. *)
Lemma open_pass_covered (src : Mask) i j :
  is_on (morph_pass Z.max 0 kernel (morph_pass Z.min 255 kernel src)) i j
  = true →
  ∃ ci cj, is_Some (at2 src ci cj) ∧ covers kernel ci cj i j
           ∧ fits src kernel ci cj.
Proof.
  intros (o & Ho & Hpos)%is_on_spec. revert Ho. rewrite at2_morph_pass.
  destruct (at2 (morph_pass Z.min 255 kernel src) i j); simpl; [|done].
  intros [= <-].
  apply foldr_max_reached in Hpos as Hx.
  destruct Hx as (x & (d & -> & Hd)%list_elem_of_fmap & Hx).
  rewrite <- Hx in Hpos. clear Hx.
  destruct (read_cases (morph_pass Z.min 255 kernel src) 0
              (Z.of_nat i + d.1) (Z.of_nat j + d.2))
    as [E | (ci & cj & e & Hi & Hj & He & E)]; rewrite E in Hpos; [lia |].
  exists ci, cj. split; [| split].
  - rewrite at2_morph_pass in He.
    destruct (at2 src ci cj); [eauto | done].
  - exists (- d.1, - d.2). split; [by apply kernel_symmetric |]. simpl. lia.
  - intros i2 j2 (d2 & Hd2 & Hi2 & Hj2) [v Hv].
    apply is_on_spec. exists v. split; [done |].
    destruct (erode_pass_le src ci cj e He) as [_ Hle].
    specialize (Hle d2 Hd2). rewrite <- Hi2, <- Hj2 in Hle.
    rewrite (read_inside src 255 i2 j2 v Hv) in Hle. lia.
Qed.

(** The samples of an opened mask stay [uint8] values. *)
Lemma open_pass_max (src : Mask) i j o :
  at2 (morph_pass Z.max 0 kernel (morph_pass Z.min 255 kernel src)) i j
  = Some o →
  o <= 255.
Proof.
  rewrite at2_morph_pass.
  destruct (at2 (morph_pass Z.min 255 kernel src) i j); simpl; [|done].
  intros [= <-]. apply foldr_max_lub; [done |].
  intros x (d & -> & Hd)%list_elem_of_fmap.
  destruct (read_cases (morph_pass Z.min 255 kernel src) 0
              (Z.of_nat i + d.1) (Z.of_nat j + d.2))
    as [-> | (i' & j' & e & _ & _ & He & ->)]; [done |].
  by apply (erode_pass_le src i' j' e).
Qed.

End Morphology.

Section MaskBuilder.
Import Img.

Lemma offsets_KERNEL :
  element_offsets KERNEL = [(-1, 0); (0, -1); (0, 0); (0, 1); (1, 0)].
Proof. reflexivity. Qed.

Lemma KERNEL_symmetric d :
  d ∈ element_offsets KERNEL → (- d.1, - d.2) ∈ element_offsets KERNEL.
Proof.
  rewrite offsets_KERNEL. intros Hd.
  repeat (apply elem_of_cons in Hd as [-> | Hd]); simpl;
    [| | | | | by apply elem_of_nil in Hd];
    repeat first [by left | right].
Qed.

(** The samples of a thresholded mask are [uint8] values. *)
Lemma inRange_uint8 (src : Image) lo up i j v :
  at2 (inRange src lo up) i j = Some v → 0 <= v <= 255.
Proof.
  rewrite at2_inRange. destruct (at2 src i j) as [px|]; simpl; [|done].
  intros [= <-]. destruct (in_bounds lo up px); lia.
Qed.

(** C2.  [make_mask] post-processes the thresholded mask by an opening and
    then a closing, once each: one erosion pass, two dilation passes and one
    erosion pass in that order, all four under the element
    [getStructuringElement(MORPH_ELLIPSE, (3, 3))], which is the 3x3 array
    whose centre row and centre column are set.  One pass gives each sample
    the minimum (erosion) or maximum (dilation) of itself and its four
    neighbours. *)
Theorem make_mask_open_then_close (hsv : Image) (lower upper : Pixel) :
  let raw := inRange hsv lower upper in
  let opened := morph_pass Z.max 0 KERNEL (morph_pass Z.min 255 KERNEL raw) in
  let closed :=
    morph_pass Z.min 255 KERNEL (morph_pass Z.max 0 KERNEL opened) in
  KERNEL = getStructuringElement MORPH_ELLIPSE (3, 3)
  ∧ KERNEL = [[0; 1; 0]; [1; 1; 1]; [0; 1; 0]]
  ∧ shape KERNEL = (3%nat, 3%nat)
  ∧ morphologyEx raw MORPH_OPEN KERNEL 1 = opened
  ∧ morphologyEx opened MORPH_CLOSE KERNEL 1 = closed
  ∧ make_mask hsv lower upper = closed
  ∧ shape closed = shape hsv
  ∧ ∀ (op : Z → Z → Z) (border : Z) (m : Mask) (i j : nat),
      let y := Z.of_nat i in
      let x := Z.of_nat j in
      at2 (morph_pass op border KERNEL m) i j
      = (λ _, op (read m border (y - 1) x)
             (op (read m border y (x - 1))
             (op (read m border y x)
             (op (read m border y (x + 1))
             (op (read m border (y + 1) x) border))))) <$> at2 m i j.
Proof.
  intros raw opened closed.
  do 6 (split; [reflexivity |]). split.
  - unfold closed, opened, raw. rewrite !shape_morph_pass. apply shape_fmap.
  - intros op border m i j y x. rewrite at2_morph_pass, offsets_KERNEL.
    simpl. fold y x. by rewrite !Z.add_0_r.
Qed.

(** C8.  Around [make_mask]'s morphology: the opened mask is on only where
    the thresholded mask is on, and every on sample of the opened mask lies
    under a copy of the structuring element that fits in the on region of
    the thresholded mask (as far as the copy lies inside the array); the
    closed mask, which [make_mask] returns, is on wherever the opened mask
    is on. *)
Theorem morphology_shrink_grow
    (hsv : Image) (lower upper : Pixel) (i j : nat) :
  let raw := inRange hsv lower upper in
  let opened := morphologyEx raw MORPH_OPEN KERNEL 1 in
  let closed := morphologyEx opened MORPH_CLOSE KERNEL 1 in
  closed = make_mask hsv lower upper
  ∧ (is_on opened i j = true →
     is_on raw i j = true
     ∧ ∃ ci cj, is_Some (at2 raw ci cj) ∧ covers KERNEL ci cj i j
                ∧ fits raw KERNEL ci cj)
  ∧ (is_on opened i j = true → is_on closed i j = true).
Proof.
  intros raw opened closed. split; [reflexivity |].
  change opened
    with (morph_pass Z.max 0 KERNEL (morph_pass Z.min 255 KERNEL raw)).
  change closed
    with (morph_pass Z.min 255 KERNEL (morph_pass Z.max 0 KERNEL opened)).
  change opened
    with (morph_pass Z.max 0 KERNEL (morph_pass Z.min 255 KERNEL raw)).
  set (op := morph_pass Z.max 0 KERNEL (morph_pass Z.min 255 KERNEL raw)).
  split.
  - intros Hon. split.
    + apply is_on_spec in Hon as (o & Ho & Hpos).
      assert (is_Some (at2 raw i j)) as [v Hv].
      { revert Ho. unfold op. rewrite !at2_morph_pass.
        destruct (at2 raw i j); [eauto | done]. }
      apply is_on_spec. exists v. split; [done |].
      pose proof (inRange_uint8 hsv lower upper i j v Hv) as [Hv0 _].
      pose proof (open_pass_le KERNEL KERNEL_symmetric raw i j v o Hv Hv0 Ho).
      lia.
    + by apply (open_pass_covered KERNEL KERNEL_symmetric raw i j).
  - intros (o & Ho & Hpos)%is_on_spec.
    pose proof (open_pass_max KERNEL raw i j o Ho) as Hmax.
    assert (is_Some (at2 (morph_pass Z.min 255 KERNEL
                            (morph_pass Z.max 0 KERNEL op)) i j))
      as [c Hc].
    { rewrite !at2_morph_pass, Ho. by eexists. }
    apply is_on_spec. exists c. split; [done |].
    pose proof (close_pass_ge KERNEL KERNEL_symmetric op i j o c Ho Hmax Hc).
    lia.
Qed.

End MaskBuilder.

(* ===================================================================== *)
(** ** The order on paths *)
(* ===================================================================== *)

Section PathOrder.
Import Batch.

Lemma compare_Lt_trans (a b c : string) :
  String.compare a b = Lt → String.compare b c = Lt → String.compare a c = Lt.
Proof.
  intros H1 H2. apply String_as_OT.cmp_lt.
  eapply String_as_OT.lt_trans; by apply String_as_OT.cmp_lt.
Qed.

Lemma compare_refl (a : string) : String.compare a a = Eq.
Proof. by apply String_as_OT.cmp_eq. Qed.

Lemma path_leb_total (p q : Path) :
  path_leb p q = true ∨ path_leb q p = true.
Proof.
  revert q. induction p as [|a p IH]; intros [|b q]; simpl; auto.
  rewrite (String.compare_antisym b a).
  destruct (String.compare a b); simpl; auto.
Qed.

Lemma path_leb_antisym (p q : Path) :
  path_leb p q = true → path_leb q p = true → p = q.
Proof.
  revert q. induction p as [|a p IH]; intros [|b q]; simpl; try done.
  rewrite (String.compare_antisym b a).
  destruct (String.compare a b) eqn:E; simpl; try done.
  apply String_as_OT.cmp_eq in E as ->. intros. f_equal. by apply IH.
Qed.

Lemma path_leb_trans (p q r : Path) :
  path_leb p q = true → path_leb q r = true → path_leb p r = true.
Proof.
  revert q r. induction p as [|a p IH]; intros [|b q] [|c r]; simpl;
    try done.
  destruct (String.compare a b) eqn:Eab; try done.
  - apply String_as_OT.cmp_eq in Eab as ->.
    destruct (String.compare b c); try done. apply IH.
  - destruct (String.compare b c) eqn:Ebc; try done.
    + apply String_as_OT.cmp_eq in Ebc as ->. by rewrite Eab.
    + by rewrite (compare_Lt_trans a b c).
Qed.

#[global] Instance path_le_total : Total path_le.
Proof. intros p q. apply path_leb_total. Qed.

#[global] Instance path_le_antisym : AntiSymm (=) path_le.
Proof. intros p q. apply path_leb_antisym. Qed.

#[global] Instance path_le_trans : Transitive path_le.
Proof. intros p q r. apply path_leb_trans. Qed.

(** Sorting forgets the order in which the paths were listed. *)
Lemma sorted_Permutation (l k : list Path) : l ≡ₚ k → sorted l = sorted k.
Proof.
  intros Hp. unfold sorted.
  apply (Sorted_unique path_le); try apply Sorted_merge_sort; try apply _.
  by rewrite !merge_sort_Permutation.
Qed.

Lemma sorted_elem (l : list Path) p : p ∈ sorted l ↔ p ∈ l.
Proof. unfold sorted. by rewrite merge_sort_Permutation. Qed.

Lemma sorted_nil_inv (l : list Path) : sorted l = [] → l = [].
Proof.
  intros H. apply Permutation_nil_r. rewrite <- H. unfold sorted.
  by rewrite merge_sort_Permutation.
Qed.

End PathOrder.

(* ===================================================================== *)
(** ** The store *)
(* ===================================================================== *)

Section StoreFacts.
Import Batch.

Lemma grows_refl (fs : FS) P : grows fs fs P.
Proof. intros q. by left. Qed.

Lemma grows_weaken (fs fs' : FS) (P R : Path → Prop) :
  (∀ q, P q → R q) → grows fs fs' P → grows fs fs' R.
Proof.
  intros HP H q. destruct (H q) as [E | (? & ? & ?)]; [by left |].
  right. auto.
Qed.

Lemma grows_trans (fs1 fs2 fs3 : FS) (P : Path → Prop) :
  grows fs1 fs2 P → grows fs2 fs3 P → grows fs1 fs3 P.
Proof.
  intros H12 H23 q.
  destruct (H23 q) as [E23 | (N2 & D3 & Hq)];
    destruct (H12 q) as [E12 | (N1 & D2 & Hp)].
  - left. congruence.
  - right. rewrite E23. auto.
  - right. rewrite <- E12. auto.
  - congruence.
Qed.

Lemma grows_insert (fs : FS) (p : Path) (P : Path → Prop) :
  fs !! p = None → P p → grows fs (<[p := Dir]> fs) P.
Proof.
  intros Hn Hp q. destruct (decide (p = q)) as [<- | Hne].
  - right. by rewrite lookup_insert_eq.
  - left. by rewrite lookup_insert_ne.
Qed.

(** What was in the store is still there after it grew. *)
Lemma grows_Some (fs fs' : FS) P q x :
  grows fs fs' P → fs !! q = Some x → fs' !! q = Some x.
Proof. intros H Hq. destruct (H q) as [-> | (? & _)]; congruence. Qed.

Lemma grows_is_dir (fs fs' : FS) P q :
  grows fs fs' P → is_dir fs q = true → is_dir fs' q = true.
Proof.
  intros H. destruct q as [|a q]; [done |]. simpl.
  destruct (_ !! _) as [[|c]|] eqn:E; try done.
  intros _. by rewrite (grows_Some _ _ _ _ _ H E).
Qed.

Lemma path_exists_false (fs : FS) (p : Path) :
  path_exists fs p = false ↔ p ≠ [] ∧ fs !! p = None.
Proof.
  destruct p as [|a p]; simpl; [by split; [| intros [? _]] |].
  rewrite bool_decide_eq_false, <- eq_None_not_Some.
  split; [done | by intros [_ ?]].
Qed.

Lemma is_dir_insert (fs : FS) (p : Path) : p ≠ [] → is_dir (<[p := Dir]> fs) p = true.
Proof. destruct p; [done |]. intros _. simpl. by rewrite lookup_insert_eq. Qed.

Lemma os_mkdir_inr (p : Path) (fs fs' : FS) :
  os_mkdir p fs = inr fs' →
  fs' = <[p := Dir]> fs ∧ fs !! p = None ∧ p ≠ [].
Proof.
  unfold os_mkdir.
  destruct (negb (path_exists fs (parent p))); [done |].
  destruct (negb (is_dir fs (parent p))); [done |].
  destruct (path_exists fs p) eqn:E; [done |].
  apply path_exists_false in E as [? ?]. by intros [= <-].
Qed.

Lemma mkdir_flat_inr (p : Path) (ok : bool) (fs fs' : FS) :
  mkdir_flat p ok fs = inr fs' →
  (fs' = fs ∧ is_dir fs p = true)
  ∨ (fs' = <[p := Dir]> fs ∧ fs !! p = None ∧ p ≠ []).
Proof.
  unfold mkdir_flat. destruct (os_mkdir p fs) as [e | fs2] eqn:E.
  - destruct e; [done | |];
      (destruct (negb ok || negb (is_dir fs p)) eqn:E2; [done |]);
      apply orb_false_iff in E2 as [_ E2]; apply negb_false_iff in E2;
      intros [= <-]; by left.
  - intros [= <-]. right. by apply os_mkdir_inr.
Qed.

Lemma mkdir_parents_cons (a : string) (rparent : list string) (ok : bool)
    (fs : FS) :
  mkdir_parents (a :: rparent) ok fs
  = match os_mkdir (reverse (a :: rparent)) fs with
    | inr fs' => inr fs'
    | inl FileNotFoundError =>
        match mkdir_parents rparent true fs with
        | inl e => inl e
        | inr fs1 => mkdir_flat (reverse (a :: rparent)) ok fs1
        end
    | inl e =>
        if negb ok || negb (is_dir fs (reverse (a :: rparent)))
        then inl e else inr fs
    end.
Proof. reflexivity. Qed.

(** [mkdir(parents=True)] only adds directories, on the way to its path,
    and when it returns its path is a directory. *)
Lemma mkdir_parents_inr (rparts : list string) (ok : bool) (fs fs' : FS) :
  mkdir_parents rparts ok fs = inr fs' →
  grows fs fs' (λ q, q ≠ [] ∧ ∃ k, q = reverse (drop k rparts))
  ∧ is_dir fs' (reverse rparts) = true.
Proof.
  revert ok fs fs'. induction rparts as [|a rparent IH]; intros ok fs fs'.
  - simpl. destruct (os_mkdir (reverse []) fs) as [e | fs2] eqn:E.
    + destruct e; [done | |];
        (destruct (_ || _); [done |]);
        intros [= <-]; (split; [apply grows_refl | done]).
    + apply os_mkdir_inr in E as (_ & _ & ?). done.
  - cbn [mkdir_parents].
    destruct (os_mkdir (reverse (a :: rparent)) fs) as [e | fs2] eqn:E.
    + destruct e.
      * destruct (mkdir_parents rparent true fs) as [e1 | fs1] eqn:E1;
          [done |].
        apply IH in E1 as [Hg1 _].
        assert (grows fs fs1
                  (λ q, q ≠ [] ∧ ∃ k, q = reverse (drop k (a :: rparent))))
          as Hg.
        { revert Hg1. apply grows_weaken.
          intros q (? & k & ->). split; [done |]. by exists (S k). }
        intros [[-> Hd] | (-> & Hn & Hne)]%mkdir_flat_inr; [done |].
        split; [| by apply is_dir_insert].
        apply (grows_trans _ _ _ _ Hg). apply grows_insert; [done |].
        split; [done |]. by exists 0%nat.
      * destruct (negb ok || negb (is_dir fs (reverse (a :: rparent))))
          eqn:E2; [done |].
        apply orb_false_iff in E2 as [_ E2]. apply negb_false_iff in E2.
        intros [= <-]. split; [apply grows_refl | done].
      * destruct (negb ok || negb (is_dir fs (reverse (a :: rparent))))
          eqn:E2; [done |].
        apply orb_false_iff in E2 as [_ E2]. apply negb_false_iff in E2.
        intros [= <-]. split; [apply grows_refl | done].
    + intros [= <-]. apply os_mkdir_inr in E as (-> & Hn & Hne).
      split; [| by apply is_dir_insert].
      apply grows_insert; [done |]. split; [done |]. by exists 0%nat.
Qed.

(** A directory that exists is left alone. *)
Lemma mkdir_parents_existing (rparts : list string) (fs : FS) :
  is_dir fs (reverse rparts) = true →
  is_dir fs (parent (reverse rparts)) = true →
  mkdir_parents rparts true fs = inr fs.
Proof.
  intros Hd Hp.
  assert (os_mkdir (reverse rparts) fs = inl FileExistsError) as E.
  { unfold os_mkdir.
    assert (path_exists fs (parent (reverse rparts)) = true) as ->.
    { destruct (parent (reverse rparts)) as [|b q]; [done |]. simpl in *.
      apply bool_decide_eq_true.
      destruct (_ !! _) as [[|]|]; by eauto. }
    rewrite Hp. simpl.
    assert (path_exists fs (reverse rparts) = true) as ->; [| done].
    destruct (reverse rparts) as [|b q]; [done |]. simpl in *.
    apply bool_decide_eq_true.
    destruct (_ !! _) as [[|]|]; by eauto. }
  destruct rparts; cbn [mkdir_parents]; by rewrite E, Hd.
Qed.

End StoreFacts.

(* ===================================================================== *)
(** ** Listing the input directory *)
(* ===================================================================== *)

Section GlobFacts.
Import Batch.

Lemma glob_elem (fs : FS) (dir : Path) (suffix : string) (p : Path) :
  p ∈ glob fs dir suffix →
  p ≠ [] ∧ parent p = dir ∧ ends_with suffix (name p) = true
  ∧ is_Some (fs !! p) ∧ is_dir fs dir = true.
Proof.
  unfold glob. destruct (is_dir fs dir); [| by intros ?%elem_of_nil].
  intros [(? & ? & ?) Hin]%list_elem_of_filter.
  apply elem_of_elements, elem_of_dom in Hin. done.
Qed.

(** The listing depends on the entries of the directory only. *)
Lemma glob_agree (fs fs' : FS) (dir : Path) (suffix : string) :
  is_dir fs dir = is_dir fs' dir →
  (∀ q, q ≠ [] → parent q = dir → is_Some (fs !! q) ↔ is_Some (fs' !! q)) →
  glob fs dir suffix ≡ₚ glob fs' dir suffix.
Proof.
  intros Hd Hq. unfold glob. rewrite <- Hd.
  destruct (is_dir fs dir); [| done].
  apply NoDup_Permutation.
  - apply NoDup_filter, NoDup_elements.
  - apply NoDup_filter, NoDup_elements.
  - intros p. rewrite !list_elem_of_filter, !elem_of_elements, !elem_of_dom.
    split; intros [(Hne & Hp & He) Hin]; (split; [done |]);
      by apply (Hq p Hne Hp).
Qed.

Lemma is_dir_lookup (fs fs' : FS) (p : Path) :
  fs' !! p = fs !! p → is_dir fs' p = is_dir fs p.
Proof. destruct p; simpl; [done |]. by intros ->. Qed.

Lemma path_exists_lookup (fs fs' : FS) (p : Path) :
  fs' !! p = fs !! p → path_exists fs' p = path_exists fs p.
Proof. destruct p; simpl; [done |]. by intros ->. Qed.

Lemma parent_name (p : Path) : p ≠ [] → p = parent p ++ [name p].
Proof. intros H. by apply app_removelast_last. Qed.

Lemma discovered_elem (fs : FS) (p : Path) :
  p ∈ discovered fs → p = INPUT_DIR ++ [name p] ∧ is_Some (fs !! p).
Proof.
  unfold discovered. rewrite sorted_elem.
  intros (Hne & Hp & _ & Hin & _)%glob_elem. split; [| done].
  rewrite <- Hp. by apply parent_name.
Qed.

(** Nothing is discovered in an [input] that is not a directory. *)
Lemma discovered_not_dir (fs : FS) :
  is_dir fs INPUT_DIR = false → discovered fs = [].
Proof. intros H. unfold discovered, glob. by rewrite H. Qed.

Lemma discovered_agree (fs fs' : FS) :
  fs' !! INPUT_DIR = fs !! INPUT_DIR →
  (∀ q, parent q = INPUT_DIR → fs' !! q = fs !! q) →
  discovered fs' = discovered fs.
Proof.
  intros Hd Hq. unfold discovered. apply sorted_Permutation, glob_agree.
  - symmetry. by apply is_dir_lookup.
  - intros q _ Hp. by rewrite (Hq q Hp).
Qed.

End GlobFacts.

(* ===================================================================== *)
(** ** The driver *)
(* ===================================================================== *)

Section DriverFacts.
Import Img Batch.

Variable decode : list Byte.byte → option Image.
Variable encode : Image → list Byte.byte.
Variable bgr2hsv : Pixel → Pixel.

Lemma input_not_output (p : Path) :
  p = INPUT_DIR ++ [name p] → not_output_file p.
Proof.
  intros Hp n. split; intros E; rewrite E in Hp; discriminate Hp.
Qed.

Lemma imwrite_fs_ne (p q : Path) (img : Image) (fs : FS) :
  p ≠ q → imwrite_fs encode p img fs !! q = fs !! q.
Proof.
  intros Hne. unfold imwrite_fs.
  destruct (is_dir fs (parent p) && negb (is_dir fs p)); [| done].
  by rewrite lookup_insert_ne.
Qed.

Lemma apply_writes_ne (q : Path) (ws : list (Path * Image)) (fs : FS) :
  (∀ pw, pw ∈ ws → pw.1 ≠ q) → apply_writes encode fs ws !! q = fs !! q.
Proof.
  revert fs. induction ws as [|pw ws IH]; intros fs Hws; [done |].
  simpl. rewrite IH by (intros; apply Hws; by right).
  apply imwrite_fs_ne, Hws. by left.
Qed.

Lemma apply_writes_app (fs : FS) (ws1 ws2 : list (Path * Image)) :
  apply_writes encode fs (ws1 ++ ws2)
  = apply_writes encode (apply_writes encode fs ws1) ws2.
Proof. apply foldl_app. Qed.

(** Every write of a batch goes directly into one of the two output
    directories. *)
Lemma expected_writes_path (fs : FS) (images : list Path) pw :
  pw ∈ expected_writes decode bgr2hsv fs images →
  ∃ p img, p ∈ images ∧ imread_fs decode fs p = Some img
           ∧ (pw = (LANES_DIR ++ [name p], lane_output bgr2hsv img)
              ∨ pw = (ROADS_DIR ++ [name p], road_output bgr2hsv img)).
Proof.
  unfold expected_writes. intros (p & Hpw & Hp)%list_elem_of_bind.
  destruct (imread_fs decode fs p) as [img|] eqn:E;
    [| by apply elem_of_nil in Hpw].
  exists p, img. split; [done |]. split; [done |].
  apply elem_of_cons in Hpw as [-> | Hpw]; [by left |].
  apply elem_of_cons in Hpw as [-> | Hpw]; [by right |].
  by apply elem_of_nil in Hpw.
Qed.

Lemma apply_expected_writes_ne (fs fs0 : FS) (images : list Path) q :
  not_output_file q →
  apply_writes encode fs (expected_writes decode bgr2hsv fs0 images) !! q
  = fs !! q.
Proof.
  intros Hq. apply apply_writes_ne.
  intros pw (p & img & _ & _ & [-> | ->])%expected_writes_path; simpl;
    intros E; by destruct (Hq (name p)).
Qed.

Lemma imread_fs_lookup (fs fs' : FS) (p : Path) :
  fs' !! p = fs !! p → imread_fs decode fs' p = imread_fs decode fs p.
Proof. unfold imread_fs. by intros ->. Qed.

Lemma expected_writes_ext (fs fs' : FS) (images : list Path) :
  (∀ p, p ∈ images → fs' !! p = fs !! p) →
  expected_writes decode bgr2hsv fs' images
  = expected_writes decode bgr2hsv fs images.
Proof.
  induction images as [|p images IH]; intros H; [done |].
  unfold expected_writes in *. simpl.
  rewrite (imread_fs_lookup fs fs' p) by (apply H; by left).
  f_equal. apply IH. intros; apply H; by right.
Qed.

Lemma expected_warnings_ext (fs fs' : FS) (images : list Path) :
  (∀ p, p ∈ images → fs' !! p = fs !! p) →
  expected_warnings decode fs' images = expected_warnings decode fs images.
Proof.
  induction images as [|p images IH]; intros H; [done |].
  unfold expected_warnings in *. simpl.
  rewrite (imread_fs_lookup fs fs' p) by (apply H; by left).
  f_equal. apply IH. intros; apply H; by right.
Qed.

Lemma expected_writes_cons (fs : FS) p (images : list Path) :
  expected_writes decode bgr2hsv fs (p :: images)
  = expected_writes decode bgr2hsv fs [p]
    ++ expected_writes decode bgr2hsv fs images.
Proof. unfold expected_writes. simpl. by rewrite app_nil_r. Qed.

Lemma expected_warnings_cons (fs : FS) p (images : list Path) :
  expected_warnings decode fs (p :: images)
  = expected_warnings decode fs [p] ++ expected_warnings decode fs images.
Proof. unfold expected_warnings. simpl. by rewrite app_nil_r. Qed.

(** One image: a warning and no write, or no warning and two writes. *)
Lemma process_image_run (p : Path) (w : World) :
  process_image decode encode bgr2hsv p w
  = (Returned tt,
     mkWorld
       (apply_writes encode (fs w) (expected_writes decode bgr2hsv (fs w) [p]))
       (stdout w ++ expected_warnings decode (fs w) [p])
       (imwrites w ++ expected_writes decode bgr2hsv (fs w) [p])).
Proof.
  unfold process_image, expected_writes, expected_warnings, mbind, M_bind,
    bind, imread. simpl.
  destruct (imread_fs decode (fs w) p) as [img|]; simpl.
  - unfold imwrite. simpl. rewrite app_nil_r, <- app_assoc. done.
  - unfold print. by rewrite !app_nil_r.
Qed.

(** The loop over images of the input directory. *)
Lemma for_each_run (images : list Path) (w : World) :
  (∀ p, p ∈ images → p = INPUT_DIR ++ [name p]) →
  for_each images (process_image decode encode bgr2hsv) w
  = (Returned tt,
     mkWorld
       (apply_writes encode (fs w)
          (expected_writes decode bgr2hsv (fs w) images))
       (stdout w ++ expected_warnings decode (fs w) images)
       (imwrites w ++ expected_writes decode bgr2hsv (fs w) images)).
Proof.
  revert w. induction images as [|p images IH]; intros w Hin.
  - simpl. unfold ret. destruct w. simpl. by rewrite !app_nil_r.
  - cbn [for_each]. unfold mbind, M_bind, bind.
    rewrite process_image_run.
    rewrite IH by (intros; apply Hin; by right). cbn [fs stdout imwrites].
    assert (∀ q, q ∈ images →
              apply_writes encode (fs w)
                (expected_writes decode bgr2hsv (fs w) [p]) !! q
              = fs w !! q) as Hsame.
    { intros q Hq. apply apply_expected_writes_ne, input_not_output, Hin.
      by right. }
    rewrite (expected_writes_ext _ _ _ Hsame),
      (expected_warnings_ext _ _ _ Hsame).
    rewrite (expected_writes_cons (fs w) p images),
      (expected_warnings_cons (fs w) p images).
    by rewrite apply_writes_app, !app_assoc.
Qed.

(** *** [ensure_dirs] *)

Lemma grows_other (fs fs' : FS) (P : Path → Prop) (q : Path) :
  grows fs fs' P → ¬ P q → fs' !! q = fs !! q.
Proof. intros H Hq. by destruct (H q) as [? | (_ & _ & ?)]. Qed.

Lemma on_the_way_LANES (q : Path) :
  q ≠ [] ∧ (∃ k, q = reverse (drop k (reverse LANES_DIR))) → output_dir q.
Proof.
  intros [Hne [k ->]]. destruct k as [|[|k]].
  - right. by left.
  - by left.
  - by destruct k.
Qed.

Lemma on_the_way_ROADS (q : Path) :
  q ≠ [] ∧ (∃ k, q = reverse (drop k (reverse ROADS_DIR))) → output_dir q.
Proof.
  intros [Hne [k ->]]. destruct k as [|[|k]].
  - right. by right.
  - by left.
  - by destruct k.
Qed.

(** When [ensure_dirs] returns, both output directories are directories,
    nothing was printed or written, and the store only gained directories
    among [output], [output/lanes] and [output/roads]. *)
Lemma ensure_dirs_inv (w w1 : World) :
  ensure_dirs w = (Returned tt, w1) →
  stdout w1 = stdout w ∧ imwrites w1 = imwrites w
  ∧ grows (fs w) (fs w1) output_dir
  ∧ is_dir (fs w1) LANES_DIR = true ∧ is_dir (fs w1) ROADS_DIR = true.
Proof.
  unfold ensure_dirs, mbind, M_bind, bind, lift_fs.
  destruct (mkdir LANES_DIR true true (fs w)) as [e | fs1] eqn:E1; [done |].
  cbn [fs stdout imwrites].
  destruct (mkdir ROADS_DIR true true fs1) as [e | fs2] eqn:E2; [done |].
  intros [= <-]. cbn [fs stdout imwrites].
  apply mkdir_parents_inr in E1 as [Hg1 Hd1], E2 as [Hg2 Hd2].
  apply (grows_weaken _ _ _ _ on_the_way_LANES) in Hg1.
  apply (grows_weaken _ _ _ _ on_the_way_ROADS) in Hg2.
  repeat split; [by eapply grows_trans | | done].
  by apply (grows_is_dir _ _ _ _ Hg2).
Qed.

Lemma ensure_dirs_result (w : World) :
  (∃ w1, ensure_dirs w = (Returned tt, w1))
  ∨ (∃ e w', ensure_dirs w = (Raised e, w')).
Proof.
  destruct (ensure_dirs w) as [[[]|e] w'] eqn:E; [left | right]; eauto.
Qed.

(** For a path of two parts that already is a directory,
    [mkdir(parents=True, exist_ok=True)] returns. *)
Lemma mkdir_two (a b : string) (fs : FS) :
  is_dir fs [a; b] = true → ∃ fs', mkdir_parents [b; a] true fs = inr fs'.
Proof.
  intros Hd. cbn [mkdir_parents]. change (reverse [b; a]) with [a; b].
  destruct (os_mkdir [a; b] fs) as [[| |] | fs2] eqn:E;
    [| rewrite Hd; by eexists | rewrite Hd; by eexists | by eexists].
  assert (path_exists fs [a] = false) as Ea.
  { revert E. unfold os_mkdir. change (parent [a; b]) with [a].
    destruct (path_exists fs [a]); [| done]. simpl.
    by repeat case_match. }
  change (reverse [a]) with [a].
  assert (os_mkdir [a] fs = inr (<[[a] := Dir]> fs)) as ->.
  { unfold os_mkdir. change (parent [a]) with (@nil string).
    by rewrite Ea. }
  unfold mkdir_flat.
  assert (is_dir (<[[a] := Dir]> fs) [a; b] = true) as Hd'.
  { revert Hd. simpl. by rewrite lookup_insert_ne. }
  assert (os_mkdir [a; b] (<[[a] := Dir]> fs) = inl FileExistsError) as ->.
  { unfold os_mkdir. change (parent [a; b]) with [a].
    assert (path_exists (<[[a] := Dir]> fs) [a] = true) as ->.
    { simpl. apply bool_decide_eq_true. rewrite lookup_insert_eq. eauto. }
    rewrite is_dir_insert by done. simpl.
    assert (bool_decide (is_Some (<[[a] := Dir]> fs !! [a; b])) = true)
      as ->; [| done].
    apply bool_decide_eq_true. revert Hd'. simpl.
    destruct (_ !! _) as [[|]|]; by eauto. }
  rewrite Hd'. by eexists.
Qed.

(** [ensure_dirs] returns whenever both output directories exist. *)
Lemma ensure_dirs_again (w : World) :
  is_dir (fs w) LANES_DIR = true → is_dir (fs w) ROADS_DIR = true →
  ∃ w1, ensure_dirs w = (Returned tt, w1).
Proof.
  intros Hl Hr. unfold ensure_dirs, mbind, M_bind, bind, lift_fs.
  destruct (mkdir_two "output" "lanes" (fs w) Hl) as [fs1 E1].
  change (mkdir LANES_DIR true true (fs w))
    with (mkdir_parents ["lanes"; "output"]%string true (fs w)).
  rewrite E1. cbn [fs stdout imwrites].
  apply mkdir_parents_inr in E1 as [Hg1 _].
  pose proof (grows_is_dir _ _ _ _ Hg1 Hr) as Hr1.
  destruct (mkdir_two "output" "roads" fs1 Hr1) as [fs2 E2].
  change (mkdir ROADS_DIR true true fs1)
    with (mkdir_parents ["roads"; "output"]%string true fs1).
  rewrite E2. by eexists.
Qed.

Lemma os_mkdir_two (a b : string) (fs : FS) :
  os_mkdir [a; b] fs
  = match fs !! [a] with
    | None => inl FileNotFoundError
    | Some (File _) => inl NotADirectoryError
    | Some Dir =>
        match fs !! [a; b] with
        | Some _ => inl FileExistsError
        | None => inr (<[[a; b] := Dir]> fs)
        end
    end.
Proof.
  unfold os_mkdir. change (parent [a; b]) with [a]. simpl.
  destruct (fs !! [a]) as [[|c]|]; simpl; try done.
  by destruct (fs !! [a; b]).
Qed.

Lemma os_mkdir_one (a : string) (fs : FS) :
  os_mkdir [a] fs
  = match fs !! [a] with
    | Some _ => inl FileExistsError
    | None => inr (<[[a] := Dir]> fs)
    end.
Proof. unfold os_mkdir. simpl. by destruct (fs !! [a]). Qed.

(** [mkdir(parents=True, exist_ok=True)] on a path of two parts returns
    unless a regular file is in the way. *)
Lemma mkdir_two_returns (a b : string) (fs : FS) :
  (∀ c, fs !! [a] ≠ Some (File c)) → (∀ c, fs !! [a; b] ≠ Some (File c)) →
  ∃ fs', mkdir_parents [b; a] true fs = inr fs'.
Proof.
  intros Ha Hb. rewrite mkdir_parents_cons.
  change (reverse [b; a]) with [a; b]. rewrite os_mkdir_two.
  destruct (fs !! [a]) as [[|c]|] eqn:Ea.
  - destruct (fs !! [a; b]) as [[|c]|] eqn:Eb.
    + simpl. rewrite Eb. by eexists.
    + by destruct (Hb c).
    + by eexists.
  - by destruct (Ha c).
  - rewrite mkdir_parents_cons. change (reverse [a]) with [a].
    rewrite os_mkdir_one, Ea. unfold mkdir_flat. rewrite os_mkdir_two.
    rewrite lookup_insert_eq, lookup_insert_ne by done.
    destruct (fs !! [a; b]) as [[|c]|] eqn:Eb.
    + simpl. rewrite lookup_insert_ne by done. rewrite Eb. by eexists.
    + by destruct (Hb c).
    + by eexists.
Qed.

(** [ensure_dirs] returns on every store in which none of [output],
    [output/lanes] and [output/roads] is a regular file. *)
Lemma ensure_dirs_returns (w : World) :
  (∀ q c, output_dir q → fs w !! q ≠ Some (File c)) →
  ∃ w1, ensure_dirs w = (Returned tt, w1).
Proof.
  intros Hfree. unfold ensure_dirs, mbind, M_bind, bind, lift_fs.
  destruct (mkdir_two_returns "output" "lanes" (fs w)) as [fs1 E1].
  { intros c. apply Hfree. by left. }
  { intros c. apply Hfree. right. by left. }
  change (mkdir LANES_DIR true true (fs w))
    with (mkdir_parents ["lanes"; "output"]%string true (fs w)).
  rewrite E1. cbn [fs stdout imwrites].
  apply mkdir_parents_inr in E1 as [Hg1 _].
  destruct (mkdir_two_returns "output" "roads" fs1) as [fs2 E2].
  { intros c E. destruct (Hg1 ["output"%string]) as [E' | (_ & E' & _)];
      rewrite E in E'; [| done].
    symmetry in E'. revert E'. apply Hfree. by left. }
  { intros c E.
    destruct (Hg1 ["output"; "roads"]%string) as [E' | (_ & E' & _)];
      rewrite E in E'; [| done].
    symmetry in E'. revert E'. apply Hfree. right. by right. }
  change (mkdir ROADS_DIR true true fs1)
    with (mkdir_parents ["roads"; "output"]%string true fs1).
  rewrite E2. by eexists.
Qed.

(** *** [main] *)

Lemma main_raises (w w' : World) e :
  ensure_dirs w = (Raised e, w') →
  main decode encode bgr2hsv w = (Raised e, w').
Proof. intros H. unfold main, mbind, M_bind, bind. by rewrite H. Qed.

Lemma input_not_output_dir : ¬ output_dir INPUT_DIR.
Proof. by intros [? | [? | ?]]. Qed.

Lemma input_file_not_output_dir (q : Path) :
  parent q = INPUT_DIR → ¬ output_dir q.
Proof. by intros Hp [-> | [-> | ->]]. Qed.

Section AfterEnsureDirs.

Variables w w1 : World.
Hypothesis ensured : ensure_dirs w = (Returned tt, w1).

Lemma ensured_input : fs w1 !! INPUT_DIR = fs w !! INPUT_DIR.
Proof.
  destruct (ensure_dirs_inv w w1 ensured) as (_ & _ & Hg & _).
  apply (grows_other _ _ _ _ Hg), input_not_output_dir.
Qed.

Lemma ensured_input_file (q : Path) :
  parent q = INPUT_DIR → fs w1 !! q = fs w !! q.
Proof.
  intros Hq. destruct (ensure_dirs_inv w w1 ensured) as (_ & _ & Hg & _).
  by apply (grows_other _ _ _ _ Hg), input_file_not_output_dir.
Qed.

Lemma ensured_discovered : discovered (fs w1) = discovered (fs w).
Proof.
  apply discovered_agree; [apply ensured_input | apply ensured_input_file].
Qed.

Lemma main_missing :
  path_exists (fs w) INPUT_DIR = false →
  main decode encode bgr2hsv w
  = (Returned 1, mkWorld (fs w1) (stdout w ++ [error_line]) (imwrites w)).
Proof.
  intros Hex. destruct (ensure_dirs_inv w w1 ensured) as (Hs & Hi & _).
  unfold main, mbind, M_bind, bind, exists_. rewrite ensured.
  rewrite (path_exists_lookup _ _ _ ensured_input), Hex. simpl.
  by rewrite Hs, Hi.
Qed.

Lemma main_empty :
  path_exists (fs w) INPUT_DIR = true →
  discovered (fs w) = [] →
  main decode encode bgr2hsv w
  = (Returned 0, mkWorld (fs w1) (stdout w ++ [no_images_line]) (imwrites w)).
Proof.
  intros Hex Hnil. destruct (ensure_dirs_inv w w1 ensured) as (Hs & Hi & _).
  unfold main, mbind, M_bind, bind, exists_, glob_. rewrite ensured.
  rewrite (path_exists_lookup _ _ _ ensured_input), Hex.
  cbn [negb fs].
  change (sorted (glob (fs w1) INPUT_DIR ".jpg")) with (discovered (fs w1)).
  rewrite ensured_discovered, Hnil. simpl. by rewrite Hs, Hi.
Qed.

Lemma main_batch :
  path_exists (fs w) INPUT_DIR = true →
  discovered (fs w) ≠ [] →
  main decode encode bgr2hsv w
  = (Returned 0,
     mkWorld
       (apply_writes encode (fs w1)
          (expected_writes decode bgr2hsv (fs w) (discovered (fs w))))
       (stdout w ++ expected_warnings decode (fs w) (discovered (fs w))
          ++ [done_line])
       (imwrites w
          ++ expected_writes decode bgr2hsv (fs w) (discovered (fs w)))).
Proof.
  intros Hex Hne. destruct (ensure_dirs_inv w w1 ensured) as (Hs & Hi & _).
  unfold main, mbind, M_bind, bind, exists_, glob_. rewrite ensured.
  rewrite (path_exists_lookup _ _ _ ensured_input), Hex.
  cbn [negb fs].
  change (sorted (glob (fs w1) INPUT_DIR ".jpg")) with (discovered (fs w1)).
  rewrite ensured_discovered.
  assert (∀ p, p ∈ discovered (fs w) → p = INPUT_DIR ++ [name p]) as Hin.
  { by intros p [? _]%discovered_elem. }
  assert (∀ p, p ∈ discovered (fs w) → fs w1 !! p = fs w !! p) as Hsame.
  { intros p Hp. apply ensured_input_file. rewrite (Hin p Hp).
    apply removelast_last. }
  destruct (discovered (fs w)) as [|p images] eqn:E; [done |].
  rewrite (for_each_run (p :: images) w1 Hin).
  rewrite (expected_writes_ext _ _ _ Hsame),
    (expected_warnings_ext _ _ _ Hsame).
  unfold print, mret, M_ret, ret. cbn [fs stdout imwrites].
  by rewrite Hs, Hi, <- app_assoc.
Qed.

End AfterEnsureDirs.

End DriverFacts.

(* ===================================================================== *)
(** ** What a batch prints and writes *)
(* ===================================================================== *)

Section BatchCounts.
Import Img Batch.

Variable decode : list Byte.byte → option Image.
Variable bgr2hsv : Pixel → Pixel.

Lemma expected_warnings_filter (fs : FS) (images : list Path) :
  expected_warnings decode fs images
  = warning_line <$> filter (λ p, readable decode fs p = false) images.
Proof.
  induction images as [|p images IH]; [done |].
  rewrite expected_warnings_cons, IH. unfold expected_warnings, readable.
  simpl. rewrite filter_cons.
  by destruct (imread_fs decode fs p).
Qed.

Lemma expected_writes_length (fs : FS) (images : list Path) :
  length (expected_writes decode bgr2hsv fs images)
  = (2 * length (filter (λ p, readable decode fs p = true) images))%nat.
Proof.
  induction images as [|p images IH]; [done |].
  rewrite expected_writes_cons, length_app, IH.
  unfold expected_writes, readable. simpl. rewrite filter_cons.
  destruct (imread_fs decode fs p); simpl; lia.
Qed.


Lemma expected_writes_readable (fs : FS) (p : Path) (img : Image) :
  imread_fs decode fs p = Some img →
  expected_writes decode bgr2hsv fs [p]
  = [(LANES_DIR ++ [name p], lane_output bgr2hsv img);
     (ROADS_DIR ++ [name p], road_output bgr2hsv img)].
Proof. unfold expected_writes. simpl. by intros ->. Qed.

Lemma discovered_NoDup (fs : FS) : NoDup (discovered fs).
Proof.
  unfold discovered, sorted. rewrite merge_sort_Permutation. unfold glob.
  destruct (is_dir fs INPUT_DIR); [| apply NoDup_nil_2].
  apply NoDup_filter, NoDup_elements.
Qed.

(** The writes of a batch over distinct images of the input directory go
    to distinct files. *)
Lemma expected_writes_NoDup (fs : FS) (images : list Path) :
  NoDup images →
  (∀ p, p ∈ images → p = INPUT_DIR ++ [name p]) →
  NoDup (fst <$> expected_writes decode bgr2hsv fs images).
Proof.
  induction 1 as [|p images Hp Hnd IH]; intros Hin; [apply NoDup_nil_2 |].
  rewrite expected_writes_cons, fmap_app. apply NoDup_app.
  split; [| split].
  - unfold expected_writes. simpl.
    destruct (imread_fs decode fs p); simpl; [| apply NoDup_nil_2].
    apply NoDup_cons. split; [| apply NoDup_singleton].
    intros E%list_elem_of_singleton. discriminate E.
  - intros x Hx (pw & -> & Hpw)%list_elem_of_fmap.
    apply (expected_writes_path decode bgr2hsv) in Hpw
      as (q & img & Hq & _ & Hpw).
    assert (name q = name p) as Hname.
    { revert Hx. unfold expected_writes. simpl.
      destruct (imread_fs decode fs p); simpl;
        [| by intros ?%elem_of_nil].
      intros Hx.
      repeat (apply elem_of_cons in Hx as [Hx | Hx]);
        [| | by apply elem_of_nil in Hx];
        destruct Hpw as [-> | ->]; simpl in Hx; by simplify_eq. }
    apply Hp. rewrite (Hin p) by (by left). rewrite <- Hname.
    rewrite <- (Hin q) by (by right). done.
  - apply IH. intros q Hq. apply Hin. by right.
Qed.

End BatchCounts.

(* ===================================================================== *)
(** ** The batch driver: status, writes and warnings *)
(* ===================================================================== *)

Section DriverClaims.
Import Img Batch.

Variable decode : list Byte.byte → option Image.
Variable encode : Image → list Byte.byte.
Variable bgr2hsv : Pixel → Pixel.

(** The three ways [main] returns once [ensure_dirs] has returned. *)
Lemma main_cases (w w1 : World) :
  ensure_dirs w = (Returned tt, w1) →
  ∃ st w',
    main decode encode bgr2hsv w = (Returned st, w')
    ∧ ((path_exists (fs w) INPUT_DIR = false ∧ st = 1
        ∧ w' = mkWorld (fs w1) (stdout w ++ [error_line]) (imwrites w))
       ∨ (path_exists (fs w) INPUT_DIR = true ∧ discovered (fs w) = []
          ∧ st = 0
          ∧ w' = mkWorld (fs w1) (stdout w ++ [no_images_line]) (imwrites w))
       ∨ (path_exists (fs w) INPUT_DIR = true ∧ discovered (fs w) ≠ []
          ∧ st = 0
          ∧ w' = mkWorld
                   (apply_writes encode (fs w1)
                      (expected_writes decode bgr2hsv (fs w)
                         (discovered (fs w))))
                   (stdout w
                      ++ expected_warnings decode (fs w) (discovered (fs w))
                      ++ [done_line])
                   (imwrites w
                      ++ expected_writes decode bgr2hsv (fs w)
                           (discovered (fs w))))).
Proof.
  intros He. destruct (path_exists (fs w) INPUT_DIR) eqn:Hex.
  - destruct (decide (discovered (fs w) = [])) as [Hnil | Hne].
    + eexists _, _. split; [by apply main_empty |]. right. left. done.
    + eexists _, _. split; [by apply main_batch |]. right. right. done.
  - eexists _, _. split; [by apply main_missing |]. left. done.
Qed.

(** The files of a store that only gained directories. *)
Lemma grows_files (fs fs' : FS) (P : Path → Prop) q c :
  grows fs fs' P → fs' !! q = Some (File c) ↔ fs !! q = Some (File c).
Proof.
  intros H. destruct (H q) as [-> | (Hn & Hd & _)]; [done |].
  rewrite Hn, Hd. done.
Qed.

Lemma expected_writes_elem (fs : FS) (images : list Path) p img :
  p ∈ images → imread_fs decode fs p = Some img →
  (LANES_DIR ++ [name p], lane_output bgr2hsv img)
    ∈ expected_writes decode bgr2hsv fs images
  ∧ (ROADS_DIR ++ [name p], road_output bgr2hsv img)
    ∈ expected_writes decode bgr2hsv fs images.
Proof.
  intros Hp Hr. unfold expected_writes.
  split; apply list_elem_of_bind; exists p; rewrite Hr;
    (split; [| done]); [left | right; left].
Qed.

Lemma expected_warnings_elem (fs : FS) (images : list Path) p :
  p ∈ images → imread_fs decode fs p = None →
  warning_line p ∈ expected_warnings decode fs images.
Proof.
  intros Hp Hr. unfold expected_warnings.
  apply list_elem_of_bind. exists p. rewrite Hr. split; [left | done].
Qed.

(** C4.  Once the output directories are in place, [main] returns 1 or 0,
    and 1 exactly when the path [input] does not exist at all, as a
    directory or as anything else (the test is [INPUT_DIR.exists()]).  In
    that case, and when [input] exists without any [.jpg] entry, there is no
    [imwrite] call and the files of the store are as before; an [input] that
    exists and is not a directory is such a case, with status 0.  Whenever
    [input] exists the status is 0, whatever the number of images that
    failed to load, and every discovered image was gone through: it has its
    warning printed, or its two writes made. *)
Theorem main_status (w w1 : World) :
  ensure_dirs w = (Returned tt, w1) →
  ∃ st w',
    main decode encode bgr2hsv w = (Returned st, w')
    ∧ (st = 1 ∨ st = 0)
    ∧ (st = 1 ↔ path_exists (fs w) INPUT_DIR = false)
    ∧ (path_exists (fs w) INPUT_DIR = false →
       imwrites w' = imwrites w
       ∧ ∀ q c, fs w' !! q = Some (File c) ↔ fs w !! q = Some (File c))
    ∧ (path_exists (fs w) INPUT_DIR = true → discovered (fs w) = [] →
       st = 0 ∧ imwrites w' = imwrites w
       ∧ ∀ q c, fs w' !! q = Some (File c) ↔ fs w !! q = Some (File c))
    ∧ (path_exists (fs w) INPUT_DIR = true →
       st = 0
       ∧ ∀ p, p ∈ discovered (fs w) →
           (imread_fs decode (fs w) p = None →
            warning_line p ∈ stdout w')
           ∧ (∀ img, imread_fs decode (fs w) p = Some img →
                (LANES_DIR ++ [name p], lane_output bgr2hsv img)
                  ∈ imwrites w'
                ∧ (ROADS_DIR ++ [name p], road_output bgr2hsv img)
                  ∈ imwrites w'))
    ∧ (path_exists (fs w) INPUT_DIR = true →
       is_dir (fs w) INPUT_DIR = false →
       st = 0 ∧ imwrites w' = imwrites w
       ∧ ∀ q c, fs w' !! q = Some (File c) ↔ fs w !! q = Some (File c)).
Proof.
  intros He. destruct (ensure_dirs_inv w w1 He) as (_ & _ & Hg & _).
  destruct (main_cases w w1 He) as (st & w' & Hrun & Hcases).
  exists st, w'. split; [exact Hrun |].
  destruct Hcases as [(Hex & -> & ->) | [(Hex & Hnil & -> & ->)
                                        | (Hex & Hne & -> & ->)]];
    rewrite Hex; cbn [fs stdout imwrites].
  - split; [by left |]. split; [done |].
    split; [intros _; split; [done | intros; by eapply grows_files] |].
    split; [done |]. split; [done |]. done.
  - split; [by right |]. split; [done |]. split; [done |].
    split; [intros _ _; split; [done |];
            split; [done | intros; by eapply grows_files] |].
    split; [intros _; split; [done |]; rewrite Hnil;
            by intros p ?%elem_of_nil |].
    intros _ _. split; [done |].
    split; [done | intros; by eapply grows_files].
  - split; [by right |]. split; [done |]. split; [done |].
    split; [done |]. split.
    + intros _. split; [done |]. intros p Hp. split.
      * intros Hr. apply elem_of_app. right. apply elem_of_app. left.
        by apply expected_warnings_elem.
      * intros img Hr.
        destruct (expected_writes_elem (fs w) _ p img Hp Hr)
          as [Hlane Hroad].
        split; apply elem_of_app; right; [exact Hlane | exact Hroad].
    + intros _ Hnd. by rewrite (discovered_not_dir _ Hnd) in Hne.
Qed.

(** C9.  A run that returns the failure status has been through
    [ensure_dirs] first: the store it leaves is the one [ensure_dirs] made,
    in which [output/lanes] and [output/roads] are directories, although
    [input] does not exist, no [imwrite] call was made and no file of the
    store changed. *)
Theorem missing_input_leaves_output_dirs (w w' : World) :
  main decode encode bgr2hsv w = (Returned 1, w') →
  ∃ w1,
    ensure_dirs w = (Returned tt, w1)
    ∧ fs w' = fs w1
    ∧ path_exists (fs w) INPUT_DIR = false
    ∧ is_dir (fs w') LANES_DIR = true
    ∧ is_dir (fs w') ROADS_DIR = true
    ∧ imwrites w' = imwrites w
    ∧ ∀ q c, fs w' !! q = Some (File c) ↔ fs w !! q = Some (File c).
Proof.
  intros Hrun.
  destruct (ensure_dirs_result w) as [[w1 He] | (e & w2 & He)];
    [| rewrite (main_raises decode encode bgr2hsv _ _ _ He) in Hrun;
       discriminate Hrun].
  exists w1. split; [done |].
  destruct (ensure_dirs_inv w w1 He) as (_ & _ & Hg & Hl & Hr).
  destruct (main_cases w w1 He) as (st & w3 & Hrun' & Hcases).
  rewrite Hrun in Hrun'. injection Hrun' as <- <-.
  destruct Hcases as [(Hex & _ & ->) | [(_ & _ & ? & _) | (_ & _ & ? & _)]];
    [| done | done].
  cbn [fs imwrites]. do 5 (split; [done |]).
  intros q c. by eapply grows_files.
Qed.

End DriverClaims.

Lemma main_status_witness :
  Batch.ensure_dirs Sample.three
  = (Batch.Returned tt, (Batch.ensure_dirs Sample.three).2)
  ∧ ∃ st w', Sample.run Sample.three = (Batch.Returned st, w') ∧ st = 0.
Proof.
  split; [vm_compute; reflexivity |].
  destruct (main_status Sample.decode Sample.encode Sample.bgr2hsv
              Sample.three (Batch.ensure_dirs Sample.three).2)
    as (st & w' & Hrun & _ & _ & _ & _ & Hok & _);
    [vm_compute; reflexivity |].
  exists st, w'. split; [exact Hrun |].
  apply Hok. vm_compute. reflexivity.
Defined.

(** With a regular file named [input] there is no input directory, and yet
    [main] returns 0: the status does not tell whether the input directory
    exists. *)
Lemma main_status_counterexample :
  Batch.is_dir (Batch.fs Sample.input_is_file) Batch.INPUT_DIR = false
  ∧ Batch.ensure_dirs Sample.input_is_file
    = (Batch.Returned tt, (Batch.ensure_dirs Sample.input_is_file).2)
  ∧ (Sample.run Sample.input_is_file).1 = Batch.Returned 0
  ∧ ¬ ((Sample.run Sample.input_is_file).1 ≠ Batch.Returned 0
       ↔ Batch.is_dir (Batch.fs Sample.input_is_file) Batch.INPUT_DIR
         = false).
Proof.
  assert ((Sample.run Sample.input_is_file).1 = Batch.Returned 0) as Hrun
    by (vm_compute; reflexivity).
  split; [vm_compute; reflexivity |]. split; [vm_compute; reflexivity |].
  split; [exact Hrun |].
  intros [_ Hback]. apply Hback; [vm_compute; reflexivity | exact Hrun].
Qed.

Lemma missing_input_leaves_output_dirs_witness :
  Batch.is_dir (Batch.fs Sample.bare) Batch.LANES_DIR = false
  ∧ Batch.is_dir (Batch.fs (Sample.run Sample.bare).2) Batch.LANES_DIR = true
  ∧ Batch.is_dir (Batch.fs (Sample.run Sample.bare).2) Batch.ROADS_DIR = true.
Proof.
  split; [reflexivity |].
  destruct (missing_input_leaves_output_dirs
              Sample.decode Sample.encode Sample.bgr2hsv
              Sample.bare (Sample.run Sample.bare).2)
    as (w1 & _ & _ & _ & Hl & Hr & _);
    [vm_compute; reflexivity |].
  split; [exact Hl | exact Hr].
Defined.

(* ===================================================================== *)
(** ** One image: load failures and dimensions *)
(* ===================================================================== *)

Section PerImageClaims.
Import Img Batch.

Variable decode : list Byte.byte → option Image.
Variable encode : Image → list Byte.byte.
Variable bgr2hsv : Pixel → Pixel.


Lemma process_image_readable (p : Path) (v : World) (img : Image) :
  imread_fs decode (fs v) p = Some img →
  process_image decode encode bgr2hsv p v
  = (Returned tt,
     mkWorld
       (imwrite_fs encode (ROADS_DIR ++ [name p]) (road_output bgr2hsv img)
          (imwrite_fs encode (LANES_DIR ++ [name p])
             (lane_output bgr2hsv img) (fs v)))
       (stdout v)
       (imwrites v ++ [(LANES_DIR ++ [name p], lane_output bgr2hsv img);
                       (ROADS_DIR ++ [name p], road_output bgr2hsv img)])).
Proof.
  intros Hr. rewrite process_image_run.
  rewrite (expected_writes_readable decode bgr2hsv _ _ _ Hr).
  unfold expected_warnings. simpl. rewrite Hr. simpl.
  by rewrite !app_nil_r.
Qed.

Lemma make_mask_passes (hsv : Image) (lower upper : Pixel) :
  make_mask hsv lower upper
  = morph_pass Z.min 255 KERNEL
      (morph_pass Z.max 0 KERNEL
         (morph_pass Z.max 0 KERNEL
            (morph_pass Z.min 255 KERNEL (inRange hsv lower upper)))).
Proof. reflexivity. Qed.

Lemma shape_make_mask (hsv : Image) (lower upper : Pixel) :
  shape (make_mask hsv lower upper) = shape hsv.
Proof.
  rewrite make_mask_passes, !shape_morph_pass. apply shape_fmap.
Qed.

Lemma rect_make_mask (hsv : Image) (lower upper : Pixel) :
  rect hsv = true → rect (make_mask hsv lower upper) = true.
Proof.
  intros H. rewrite make_mask_passes.
  do 4 apply rect_morph_pass. by apply rect_fmap.
Qed.

(** The painted mask of an image has the dimensions of the image. *)
Lemma painted_dimensions (img : Image) (lower upper color : Pixel) :
  rect img = true →
  let out :=
    save_mask_as_color
      (make_mask (cvtColor_BGR2HSV bgr2hsv img) lower upper) color in
  shape out = shape img ∧ rect out = true
  ∧ ∀ i j, is_Some (at2 out i j) ↔ is_Some (at2 img i j).
Proof.
  intros Hr out.
  assert (shape out = shape img) as Hs.
  { unfold out, cvtColor_BGR2HSV.
    by rewrite shape_save, shape_make_mask, shape_fmap. }
  assert (rect out = true) as Hro.
  { unfold out, cvtColor_BGR2HSV.
    by apply rect_save, rect_make_mask, rect_fmap. }
  split; [done |]. split; [done |]. by apply shape_eq_at2.
Qed.

(** C6.  For an image that loads, the colour conversion, the thresholded
    mask and the cleaned mask have the shape of the image, and the two
    arrays [process_image] hands to [imwrite], the lane output and the road
    output, have exactly its height and width: they are rectangular, of the
    same shape, with a sample at every position of the image and nowhere
    else. *)
Theorem outputs_keep_dimensions (p : Path) (w : World) (img : Image) :
  imread_fs decode (fs w) p = Some img →
  rect img = true →
  let hsv := cvtColor_BGR2HSV bgr2hsv img in
  let lane_out := lane_output bgr2hsv img in
  let road_out := road_output bgr2hsv img in
  imwrites (process_image decode encode bgr2hsv p w).2
  = imwrites w ++ [(LANES_DIR ++ [name p], lane_out);
                   (ROADS_DIR ++ [name p], road_out)]
  ∧ shape hsv = shape img
  ∧ (∀ lower upper,
       shape (inRange hsv lower upper) = shape img
       ∧ shape (make_mask hsv lower upper) = shape img)
  ∧ shape lane_out = shape img ∧ shape road_out = shape img
  ∧ rect lane_out = true ∧ rect road_out = true
  ∧ (∀ i j, is_Some (at2 lane_out i j) ↔ is_Some (at2 img i j))
  ∧ (∀ i j, is_Some (at2 road_out i j) ↔ is_Some (at2 img i j)).
Proof.
  intros Hload Hr hsv lane_out road_out.
  assert (shape hsv = shape img) as Hh by apply shape_fmap.
  destruct (painted_dimensions img LANE_LOWER LANE_UPPER WHITE Hr)
    as (Hl1 & Hl2 & Hl3).
  destruct (painted_dimensions img ROAD_LOWER ROAD_UPPER GREY Hr)
    as (Hr1 & Hr2 & Hr3).
  split; [by rewrite (process_image_readable p w img Hload) |].
  split; [done |]. split.
  { intros lower upper. rewrite shape_make_mask, <- Hh.
    split; [apply shape_fmap | done]. }
  exact (conj Hl1 (conj Hr1 (conj Hl2 (conj Hr2 (conj Hl3 Hr3))))).
Qed.

End PerImageClaims.

Lemma outputs_keep_dimensions_witness :
  Img.shape
    (Batch.lane_output Sample.bgr2hsv [[(25, 50, 130); (25, 50, 130)]])
  = (1%nat, 2%nat)
  ∧ Img.shape
      (Batch.road_output Sample.bgr2hsv [[(25, 50, 130); (25, 50, 130)]])
    = (1%nat, 2%nat).
Proof.
  destruct (outputs_keep_dimensions
              Sample.decode Sample.encode Sample.bgr2hsv
              ["input"; "b.jpg"]%string Sample.three
              [[(25, 50, 130); (25, 50, 130)]])
    as (_ & _ & _ & Hl & Hr & _);
    [vm_compute; reflexivity .. |].
  split; [exact Hl | exact Hr].
Defined.

(* ===================================================================== *)
(** ** Running the script twice *)
(* ===================================================================== *)

Section Rerun.
Import Img Batch.

Variable decode : list Byte.byte → option Image.
Variable encode : Image → list Byte.byte.
Variable bgr2hsv : Pixel → Pixel.

(** *** A run, as a function of the store *)

Lemma main_outcome (w w1 : World) :
  ensure_dirs w = (Returned tt, w1) →
  main decode encode bgr2hsv w
  = (Returned (outcome decode bgr2hsv (fs w)).1.1,
     mkWorld
       (apply_writes encode (fs w1) (outcome decode bgr2hsv (fs w)).2)
       (stdout w ++ (outcome decode bgr2hsv (fs w)).1.2)
       (imwrites w ++ (outcome decode bgr2hsv (fs w)).2)).
Proof.
  intros He. unfold outcome.
  destruct (path_exists (fs w) INPUT_DIR) eqn:Hex; cbn [negb].
  - destruct (discovered (fs w)) as [|p images] eqn:E.
    + rewrite (main_empty decode encode bgr2hsv w w1 He Hex E).
      cbn [fst snd apply_writes foldl]. by rewrite app_nil_r.
    + assert (discovered (fs w) ≠ []) as Hne by by rewrite E.
      rewrite (main_batch decode encode bgr2hsv w w1 He Hex Hne).
      by rewrite E.
  - rewrite (main_missing decode encode bgr2hsv w w1 He Hex).
    cbn [fst snd apply_writes foldl]. by rewrite app_nil_r.
Qed.

(** The outcome reads the store at [input] and directly inside it only. *)
Lemma outcome_agree (fs fs' : FS) :
  fs' !! INPUT_DIR = fs !! INPUT_DIR →
  (∀ q, parent q = INPUT_DIR → fs' !! q = fs !! q) →
  outcome decode bgr2hsv fs' = outcome decode bgr2hsv fs.
Proof.
  intros Hd Hq. unfold outcome.
  rewrite (path_exists_lookup _ _ _ Hd), (discovered_agree _ _ Hd Hq).
  destruct (negb (path_exists fs INPUT_DIR)); [done |].
  assert (∀ p, p ∈ discovered fs → fs' !! p = fs !! p) as Hsame.
  { intros p [Hp _]%discovered_elem. apply Hq. rewrite Hp.
    apply removelast_last. }
  remember (discovered fs) as images eqn:E. clear E.
  destruct images as [|p images]; [done |].
  by rewrite (expected_writes_ext decode bgr2hsv _ _ _ Hsame),
    (expected_warnings_ext decode _ _ _ Hsame).
Qed.

(** Every write of a run goes directly into an output directory. *)
Lemma outcome_writes_path (fs : FS) pw :
  pw ∈ (outcome decode bgr2hsv fs).2 →
  ∃ n, pw.1 = LANES_DIR ++ [n] ∨ pw.1 = ROADS_DIR ++ [n].
Proof.
  unfold outcome. destruct (negb (path_exists fs INPUT_DIR));
    [by intros ?%elem_of_nil |].
  destruct (discovered fs) as [|p images]; [by intros ?%elem_of_nil |].
  cbn [snd].
  intros (q & img & _ & _ & [-> | ->])%expected_writes_path;
    exists (name q); [by left | by right].
Qed.

(** *** Emptying the output directories *)

Lemma below_inv (dir p : Path) :
  below dir p = true → ∃ k, p = dir ++ k ∧ k ≠ [].
Proof.
  unfold below. rewrite andb_true_iff, negb_true_iff.
  rewrite bool_decide_eq_true, bool_decide_eq_false.
  intros [[k ->] Hne]. exists k. split; [done |].
  intros ->. by rewrite app_nil_r in Hne.
Qed.

Lemma below_child (dir : Path) (n : string) : below dir (dir ++ [n]) = true.
Proof.
  unfold below. rewrite andb_true_iff, negb_true_iff.
  rewrite bool_decide_eq_true, bool_decide_eq_false. split.
  - by exists [n].
  - intros E. apply (f_equal length) in E. rewrite length_app in E.
    simpl in E. lia.
Qed.

Lemma not_below (dir p : Path) :
  (∀ k, p ≠ dir ++ k ∨ k = []) → below dir p = false.
Proof.
  intros H. apply not_true_is_false. intros (k & -> & Hk)%below_inv.
  by destruct (H k).
Qed.

Lemma kept_output_dir (q : Path) : output_dir q → kept q.
Proof.
  intros [-> | [-> | ->]]; split; apply not_below; intros k;
    destruct k as [|a k]; try (by right); left; intros E;
    discriminate E.
Qed.

Lemma kept_input : kept INPUT_DIR.
Proof. split; apply not_below; intros k; left; intros E; discriminate E. Qed.

Lemma kept_input_file (q : Path) : parent q = INPUT_DIR → kept q.
Proof.
  intros Hq.
  assert (q = INPUT_DIR ++ [name q]) as ->.
  { rewrite <- Hq. apply parent_name. intros ->. discriminate Hq. }
  split; apply not_below; intros k; left; intros E; discriminate E.
Qed.

Lemma kept_not_output_file (q : Path) : kept q → not_output_file q.
Proof.
  intros [Hl Hr] n. split; intros ->.
  - by rewrite below_child in Hl.
  - by rewrite below_child in Hr.
Qed.

Lemma clear_outputs_kept (fs : FS) (q : Path) :
  kept q → clear_outputs fs !! q = fs !! q.
Proof.
  intros Hk. unfold clear_outputs. rewrite map_lookup_filter.
  destruct (fs !! q) as [x|]; simpl; [| done].
  by rewrite option_guard_True.
Qed.

Lemma clear_outputs_gone (fs : FS) (q : Path) :
  ¬ kept q → clear_outputs fs !! q = None.
Proof.
  intros Hk. unfold clear_outputs. rewrite map_lookup_filter.
  destruct (fs !! q) as [x|]; simpl; [| done].
  by rewrite option_guard_False.
Qed.

#[local] Instance kept_dec (q : Path) : Decision (kept q).
Proof. unfold kept. apply _. Defined.

(** The writes of a run are lost in the emptying. *)
Lemma clear_outputs_writes (fs fs0 : FS) :
  clear_outputs (apply_writes encode fs (outcome decode bgr2hsv fs0).2)
  = clear_outputs fs.
Proof.
  apply map_eq. intros q. destruct (decide (kept q)) as [Hk | Hk].
  - rewrite !clear_outputs_kept by done.
    apply apply_writes_ne.
    intros pw [n Hn]%outcome_writes_path E.
    destruct (kept_not_output_file q Hk n) as [H1 H2].
    rewrite E in Hn. by destruct Hn.
  - by rewrite !clear_outputs_gone.
Qed.

(** *** [ensure_dirs], a second time *)

Lemma mkdir_two_parent (a b : string) (ok : bool) (fs fs' : FS) :
  mkdir_parents [b; a] ok fs = inr fs' → is_Some (fs' !! [a]).
Proof.
  rewrite mkdir_parents_cons. change (reverse [b; a]) with [a; b].
  destruct (os_mkdir [a; b] fs) as [e | fs2] eqn:E.
  - assert (e ≠ FileNotFoundError → is_Some (fs !! [a])) as Hpar.
    { intros He. revert E. unfold os_mkdir. change (parent [a; b]) with [a].
      destruct (path_exists fs [a]) eqn:Ea; simpl;
        [| intros [= <-]; by destruct He].
      intros _. simpl in Ea. by apply bool_decide_eq_true in Ea. }
    destruct e.
    + destruct (mkdir_parents [a] true fs) as [e1 | fs1] eqn:E1; [done |].
      apply mkdir_parents_inr in E1 as [_ Hd1].
      change (reverse [a]) with [a] in Hd1.
      assert (is_Some (fs1 !! [a])) as H1.
      { revert Hd1. simpl. by destruct (fs1 !! [a]) as [[|]|]. }
      intros [[-> _] | (-> & _ & _)]%mkdir_flat_inr; [done |].
      by rewrite lookup_insert_ne.
    + destruct (_ || _); [done |]. intros [= <-]. by apply Hpar.
    + destruct (_ || _); [done |]. intros [= <-]. by apply Hpar.
  - intros [= <-].
    assert (is_Some (fs !! [a])) as Hpar.
    { revert E. unfold os_mkdir. change (parent [a; b]) with [a].
      destruct (path_exists fs [a]) eqn:Ea; simpl; [| done].
      intros _. simpl in Ea. by apply bool_decide_eq_true in Ea. }
    apply os_mkdir_inr in E as (-> & _ & _).
    by rewrite lookup_insert_ne.
Qed.

Lemma mkdir_two_same (a b : string) (fs : FS) :
  is_dir fs [a; b] = true → is_Some (fs !! [a]) →
  mkdir_parents [b; a] true fs = inr fs.
Proof.
  intros Hd Hpar. rewrite mkdir_parents_cons.
  change (reverse [b; a]) with [a; b]. unfold os_mkdir.
  change (parent [a; b]) with [a].
  assert (path_exists fs [a] = true) as ->
    by (simpl; by apply bool_decide_eq_true).
  cbn [negb].
  destruct (negb (is_dir fs [a])); [by rewrite Hd |].
  assert (path_exists fs [a; b] = true) as ->; [| by rewrite Hd].
  simpl. apply bool_decide_eq_true. revert Hd. simpl.
  by destruct (fs !! [a; b]) as [[|]|].
Qed.

(** With [output] and both output directories in place, [ensure_dirs]
    changes nothing. *)
Lemma ensure_dirs_settled (w : World) :
  is_dir (fs w) LANES_DIR = true → is_dir (fs w) ROADS_DIR = true →
  is_Some (fs w !! OUTPUT_DIR) →
  ensure_dirs w = (Returned tt, w).
Proof.
  intros Hl Hr Ho. unfold ensure_dirs, mbind, M_bind, bind, lift_fs.
  change (mkdir LANES_DIR true true (fs w))
    with (mkdir_parents ["lanes"; "output"]%string true (fs w)).
  rewrite (mkdir_two_same "output" "lanes" (fs w) Hl Ho).
  cbn [fs stdout imwrites].
  change (mkdir ROADS_DIR true true (fs w))
    with (mkdir_parents ["roads"; "output"]%string true (fs w)).
  rewrite (mkdir_two_same "output" "roads" (fs w) Hr Ho).
  by destruct w.
Qed.

Lemma ensure_dirs_output (w w1 : World) :
  ensure_dirs w = (Returned tt, w1) → is_Some (fs w1 !! OUTPUT_DIR).
Proof.
  unfold ensure_dirs, mbind, M_bind, bind, lift_fs.
  destruct (mkdir LANES_DIR true true (fs w)) as [e | fs1] eqn:E1; [done |].
  cbn [fs stdout imwrites].
  destruct (mkdir ROADS_DIR true true fs1) as [e | fs2] eqn:E2; [done |].
  intros [= <-]. cbn [fs].
  by apply (mkdir_two_parent "output" "roads" true fs1 fs2).
Qed.

(** A store whose output directories hold nothing still is such a store
    after [ensure_dirs]. *)
Lemma ensure_dirs_clear (w w1 : World) :
  ensure_dirs w = (Returned tt, w1) →
  clear_outputs (fs w) = fs w → clear_outputs (fs w1) = fs w1.
Proof.
  intros He Hc. destruct (ensure_dirs_inv w w1 He) as (_ & _ & Hg & _).
  apply map_eq. intros q. destruct (decide (kept q)) as [Hk | Hk].
  - by apply clear_outputs_kept.
  - rewrite clear_outputs_gone by done. symmetry.
    rewrite (grows_other _ _ _ _ Hg)
      by (intros Hq; by apply Hk, kept_output_dir).
    rewrite <- Hc. by apply clear_outputs_gone.
Qed.

(** C7.  A run of [main] that returns, followed by a run on the store it
    left with the two output directories emptied, returns the same status
    the second time, prints the same lines and makes the same [imwrite]
    calls: same file names, same arrays, in the same order, hence the same
    bytes.  When the output directories held nothing before the first run
    either, the second run leaves the very store the first one left.  The
    two arrays written for an image are functions of the image alone: its
    HSV conversion thresholded by the constant bounds, opened and closed
    under the constant structuring element, painted in the constant
    colour. *)
Theorem rerun_same_outputs (w0 w1 : World) (st : Z) :
  main decode encode bgr2hsv w0 = (Returned st, w1) →
  let again := mkWorld (clear_outputs (fs w1)) [] [] in
  ∃ w2,
    main decode encode bgr2hsv again = (Returned st, w2)
    ∧ stdout w1 = stdout w0 ++ stdout w2
    ∧ imwrites w1 = imwrites w0 ++ imwrites w2
    ∧ (clear_outputs (fs w0) = fs w0 → fs w2 = fs w1)
    ∧ ∀ p v img,
        imread_fs decode (fs v) p = Some img →
        imwrites (process_image decode encode bgr2hsv p v).2
        = imwrites v
          ++ [(LANES_DIR ++ [name p],
               save_mask_as_color
                 (morphologyEx
                    (morphologyEx
                       (inRange (cvtColor_BGR2HSV bgr2hsv img)
                          LANE_LOWER LANE_UPPER)
                       MORPH_OPEN KERNEL 1)
                    MORPH_CLOSE KERNEL 1)
                 WHITE);
              (ROADS_DIR ++ [name p],
               save_mask_as_color
                 (morphologyEx
                    (morphologyEx
                       (inRange (cvtColor_BGR2HSV bgr2hsv img)
                          ROAD_LOWER ROAD_UPPER)
                       MORPH_OPEN KERNEL 1)
                    MORPH_CLOSE KERNEL 1)
                 GREY)].
Proof.
  intros Hrun again.
  destruct (ensure_dirs_result w0) as [[w01 He0] | (e & w' & He0)];
    [| rewrite (main_raises decode encode bgr2hsv _ _ _ He0) in Hrun;
       discriminate Hrun].
  rewrite (main_outcome w0 w01 He0) in Hrun. injection Hrun as <- <-.
  destruct (ensure_dirs_inv w0 w01 He0) as (_ & _ & Hg0 & Hl0 & Hr0).
  assert (fs again = clear_outputs (fs w01)) as Hfs.
  { unfold again. cbn [fs]. apply clear_outputs_writes. }
  assert (∀ q, kept q → fs again !! q = fs w01 !! q) as Hkept.
  { intros q Hq. rewrite Hfs. by apply clear_outputs_kept. }
  assert (is_dir (fs again) LANES_DIR = true) as Hl.
  { rewrite (is_dir_lookup (fs w01)); [done |].
    apply Hkept, kept_output_dir. right. by left. }
  assert (is_dir (fs again) ROADS_DIR = true) as Hr.
  { rewrite (is_dir_lookup (fs w01)); [done |].
    apply Hkept, kept_output_dir. right. by right. }
  destruct (ensure_dirs_again again Hl Hr) as [w21 He2].
  assert (outcome decode bgr2hsv (fs again) = outcome decode bgr2hsv (fs w0))
    as Hout.
  { apply outcome_agree.
    - rewrite (Hkept _ kept_input). by apply ensured_input.
    - intros q Hq. rewrite (Hkept _ (kept_input_file q Hq)).
      by apply ensured_input_file. }
  eexists. split; [| split; [| split; [| split]]].
  - rewrite (main_outcome again w21 He2), Hout. reflexivity.
  - reflexivity.
  - reflexivity.
  - intros Hclean. cbn [fs]. f_equal.
    pose proof (ensure_dirs_clear w0 w01 He0 Hclean) as Hc01.
    assert (fs again = fs w01) as Hsame by (by rewrite Hfs).
    assert (ensure_dirs again = (Returned tt, again)) as He2'.
    { apply ensure_dirs_settled; [done | done |].
      rewrite Hsame. by apply (ensure_dirs_output w0). }
    rewrite He2 in He2'. injection He2' as ->. exact Hsame.
  - intros p v img Hload.
    by rewrite (process_image_readable decode encode bgr2hsv p v img Hload).
Qed.

End Rerun.

Lemma rerun_same_outputs_witness :
  ∃ w2,
    Sample.run (Batch.mkWorld
                  (Batch.clear_outputs
                     (Batch.fs (Sample.run Sample.three).2)) [] [])
    = (Batch.Returned 0, w2)
    ∧ Batch.imwrites (Sample.run Sample.three).2 = Batch.imwrites w2
    ∧ Batch.fs w2 = Batch.fs (Sample.run Sample.three).2.
Proof.
  destruct (rerun_same_outputs Sample.decode Sample.encode Sample.bgr2hsv
              Sample.three (Sample.run Sample.three).2 0)
    as (w2 & Hrun & _ & Hw & Hfs & _); [vm_compute; reflexivity |].
  exists w2. split; [exact Hrun |]. split; [exact Hw |].
  apply Hfs. vm_compute. reflexivity.
Defined.

(* ===================================================================== *)
(** ** More on the mask builder *)
(* ===================================================================== *)

Section PassFacts.
Import Img.

Variable kernel : Mask.

Lemma foldr_min_binary (l : list Z) :
  Forall binary l → binary (foldr Z.min 255 l).
Proof.
  induction 1 as [|x l [-> | ->] _ [IH | IH]]; simpl; rewrite ?IH;
    unfold binary; lia.
Qed.

Lemma foldr_max_binary (l : list Z) :
  Forall binary l → binary (foldr Z.max 0 l).
Proof.
  induction 1 as [|x l [-> | ->] _ [IH | IH]]; simpl; rewrite ?IH;
    unfold binary; lia.
Qed.

Lemma reads_binary (src : Mask) (border : Z) i j :
  binary border →
  (∀ i j v, at2 src i j = Some v → binary v) →
  Forall binary
    ((λ d : Z * Z, read src border (Z.of_nat i + d.1) (Z.of_nat j + d.2))
       <$> element_offsets kernel).
Proof.
  intros Hb Hsrc. apply Forall_fmap, Forall_forall. intros d _. simpl.
  destruct (read_cases src border (Z.of_nat i + d.1) (Z.of_nat j + d.2))
    as [-> | (i' & j' & v & _ & _ & Hv & ->)]; [done | by eapply Hsrc].
Qed.

(** A pass over a 0/255 mask gives a 0/255 mask. *)
Lemma erode_pass_binary (src : Mask) :
  (∀ i j v, at2 src i j = Some v → binary v) →
  ∀ i j v, at2 (morph_pass Z.min 255 kernel src) i j = Some v → binary v.
Proof.
  intros Hsrc i j v. rewrite at2_morph_pass.
  destruct (at2 src i j); simpl; [| done]. intros [= <-].
  apply foldr_min_binary, reads_binary; [by right | done].
Qed.

Lemma dilate_pass_binary (src : Mask) :
  (∀ i j v, at2 src i j = Some v → binary v) →
  ∀ i j v, at2 (morph_pass Z.max 0 kernel src) i j = Some v → binary v.
Proof.
  intros Hsrc i j v. rewrite at2_morph_pass.
  destruct (at2 src i j); simpl; [| done]. intros [= <-].
  apply foldr_max_binary, reads_binary; [by left | done].
Qed.

(** The anchor belongs to the element. *)
Hypothesis kernel_origin : (0, 0) ∈ element_offsets kernel.

Lemma read_origin (src : Mask) border i j v :
  at2 src i j = Some v →
  read src border (Z.of_nat i + (0, 0).1) (Z.of_nat j + (0, 0).2) = v.
Proof. intros H. simpl. rewrite !Z.add_0_r. by apply read_inside. Qed.

(** A pass keeps the samples within the bounds of the source. *)
Lemma erode_pass_range (a b : Z) (src : Mask) :
  a <= 255 →
  (∀ i j v, at2 src i j = Some v → a <= v <= b) →
  ∀ i j e, at2 (morph_pass Z.min 255 kernel src) i j = Some e → a <= e <= b.
Proof.
  intros Ha Hsrc i j e He.
  assert (is_Some (at2 src i j)) as [v Hv].
  { revert He. rewrite at2_morph_pass. by destruct (at2 src i j). }
  destruct (erode_pass_le kernel src i j e He) as [_ Hle].
  specialize (Hle _ kernel_origin). rewrite (read_origin _ _ _ _ _ Hv) in Hle.
  split; [| specialize (Hsrc _ _ _ Hv); lia].
  revert He. rewrite at2_morph_pass, Hv. simpl. intros [= <-].
  apply foldr_min_glb; [done |].
  intros x (d & -> & _)%list_elem_of_fmap.
  destruct (read_cases src 255 (Z.of_nat i + d.1) (Z.of_nat j + d.2))
    as [-> | (i' & j' & v' & _ & _ & Hv' & ->)]; [done |].
  by apply (Hsrc _ _ _ Hv').
Qed.

Lemma dilate_pass_range (a b : Z) (src : Mask) :
  0 <= b →
  (∀ i j v, at2 src i j = Some v → a <= v <= b) →
  ∀ i j e, at2 (morph_pass Z.max 0 kernel src) i j = Some e → a <= e <= b.
Proof.
  intros Hb Hsrc i j e He.
  assert (is_Some (at2 src i j)) as [v Hv].
  { revert He. rewrite at2_morph_pass. by destruct (at2 src i j). }
  destruct (dilate_pass_ge kernel src i j e He) as [_ Hge].
  specialize (Hge _ kernel_origin). rewrite (read_origin _ _ _ _ _ Hv) in Hge.
  split; [specialize (Hsrc _ _ _ Hv); lia |].
  revert He. rewrite at2_morph_pass, Hv. simpl. intros [= <-].
  apply foldr_max_lub; [done |].
  intros x (d & -> & _)%list_elem_of_fmap.
  destruct (read_cases src 0 (Z.of_nat i + d.1) (Z.of_nat j + d.2))
    as [-> | (i' & j' & v' & _ & _ & Hv' & ->)]; [done |].
  by apply (Hsrc _ _ _ Hv').
Qed.

(** The other half of the opening: what lies under a copy of the element
    that fits stays on. *)
Hypothesis kernel_symmetric :
  ∀ d, d ∈ element_offsets kernel → (- d.1, - d.2) ∈ element_offsets kernel.

Lemma open_pass_keeps (src : Mask) (ci cj i j : nat) :
  is_Some (at2 src ci cj) → is_Some (at2 src i j) →
  covers kernel ci cj i j → fits src kernel ci cj →
  is_on (morph_pass Z.max 0 kernel (morph_pass Z.min 255 kernel src)) i j
  = true.
Proof.
  intros [vc Hvc] [v Hv] (d & Hd & Hi & Hj) Hfit.
  set (eroded := morph_pass Z.min 255 kernel src).
  assert (is_Some (at2 eroded ci cj)) as [e He].
  { unfold eroded. rewrite at2_morph_pass, Hvc. by eexists. }
  assert (1 <= e) as Hepos.
  { revert He. unfold eroded. rewrite at2_morph_pass, Hvc. simpl.
    intros [= <-]. apply foldr_min_glb; [done |].
    intros x (d' & -> & Hd')%list_elem_of_fmap.
    destruct (read_cases src 255 (Z.of_nat ci + d'.1) (Z.of_nat cj + d'.2))
      as [-> | (i' & j' & v' & Hi' & Hj' & Hv' & ->)]; [done |].
    assert (is_on src i' j' = true) as Hon.
    { apply Hfit; [| by eexists]. exists d'. by rewrite <- Hi', <- Hj'. }
    apply is_on_spec in Hon as (v2 & Hv2 & ?).
    rewrite Hv' in Hv2. injection Hv2 as <-. lia. }
  assert (is_Some (at2 (morph_pass Z.max 0 kernel eroded) i j)) as [o Ho].
  { rewrite !at2_morph_pass. unfold eroded. rewrite at2_morph_pass, Hv.
    by eexists. }
  apply is_on_spec. exists o. split; [done |].
  destruct (dilate_pass_ge kernel eroded i j o Ho) as [_ Hge].
  specialize (Hge _ (kernel_symmetric d Hd)). simpl in Hge.
  replace (Z.of_nat i + - d.1) with (Z.of_nat ci) in Hge by lia.
  replace (Z.of_nat j + - d.2) with (Z.of_nat cj) in Hge by lia.
  rewrite (read_inside eroded 0 ci cj e He) in Hge. lia.
Qed.

End PassFacts.

Section MaskBuilderMore.
Import Img.

Lemma KERNEL_origin : (0, 0) ∈ element_offsets KERNEL.
Proof. rewrite offsets_KERNEL. right. right. left. Qed.

Lemma inRange_binary (src : Image) lo up i j v :
  at2 (inRange src lo up) i j = Some v → binary v.
Proof.
  rewrite at2_inRange. destruct (at2 src i j) as [px|]; simpl; [| done].
  intros [= <-]. destruct (in_bounds lo up px); [by right | by left].
Qed.

Lemma make_mask_binary (hsv : Image) lo up i j v :
  at2 (make_mask hsv lo up) i j = Some v → binary v.
Proof.
  rewrite make_mask_passes. revert i j v.
  apply erode_pass_binary, dilate_pass_binary, dilate_pass_binary,
    erode_pass_binary.
  intros i j v. apply inRange_binary.
Qed.

(** X1.  The cleaned mask holds only 0 and 255, so that on it the test [mask > 0]
    of the painter and the [mask == 255] of its docstring select the same
    samples: the painted sample is the colour where the mask is 255 and black
    where it is 0. *)
Theorem cleaned_mask_is_binary
    (hsv : Image) (lower upper color : Pixel) (i j : nat) (v : Z) :
  rect hsv = true →
  pixel_ok color = true →
  at2 (make_mask hsv lower upper) i j = Some v →
  (v = 0 ∨ v = 255)
  ∧ (is_on (make_mask hsv lower upper) i j = true ↔ v = 255)
  ∧ at2 (save_mask_as_color (make_mask hsv lower upper) color) i j
    = Some (if v =? 255 then color else BLACK).
Proof.
  intros Hr Hc Hv. pose proof (make_mask_binary _ _ _ _ _ _ Hv) as Hb.
  split; [exact Hb |]. split.
  - rewrite is_on_spec, Hv. split.
    + intros (? & [= <-] & ?). destruct Hb; lia.
    + intros ->. by eexists.
  - rewrite at2_save by (by apply rect_make_mask).
    rewrite Hv, (as_uint8_ok _ Hc). simpl. by destruct Hb as [-> | ->].
Qed.

Lemma cleaned_mask_is_binary_witness :
  at2 (save_mask_as_color
         (make_mask [[(25, 50, 130); (25, 50, 130)]] LANE_LOWER LANE_UPPER)
         WHITE) 0 1
  = Some WHITE.
Proof.
  destruct (cleaned_mask_is_binary [[(25, 50, 130); (25, 50, 130)]]
              LANE_LOWER LANE_UPPER WHITE 0 1 255)
    as (_ & _ & H); [reflexivity .. |].
  exact H.
Defined.

(** X2.  A sample is on after the opening exactly when it lies under a copy of
    the structuring element, centred inside the array, that fits in the on
    region of the mask: what is thinner than the element goes, what contains
    a copy of it stays. *)
Theorem opening_keeps_exactly_what_fits (raw : Mask) (i j : nat) :
  is_on (morphologyEx raw MORPH_OPEN KERNEL 1) i j = true
  ↔ is_Some (at2 raw i j)
    ∧ ∃ ci cj, is_Some (at2 raw ci cj) ∧ covers KERNEL ci cj i j
               ∧ fits raw KERNEL ci cj.
Proof.
  change (morphologyEx raw MORPH_OPEN KERNEL 1)
    with (morph_pass Z.max 0 KERNEL (morph_pass Z.min 255 KERNEL raw)).
  split.
  - intros Hon. split.
    + apply is_on_spec in Hon as (o & Ho & _). revert Ho.
      rewrite !at2_morph_pass. by destruct (at2 raw i j).
    + by apply (open_pass_covered KERNEL KERNEL_symmetric).
  - intros (Hin & ci & cj & Hc & Hcov & Hfit).
    by apply (open_pass_keeps KERNEL KERNEL_symmetric raw ci cj).
Qed.

(** X3.  When every pixel of the image passes the threshold, or when none does,
    the morphology changes nothing: the cleaned mask is 255 everywhere,
    borders included, or 0 everywhere, and the painted image is the solid
    colour or all black. *)
Theorem uniform_image_gives_uniform_output
    (hsv : Image) (lower upper color : Pixel) (b : bool) (i j : nat) :
  rect hsv = true →
  pixel_ok color = true →
  (∀ i j px, at2 hsv i j = Some px → in_bounds lower upper px = b) →
  is_Some (at2 hsv i j) →
  at2 (make_mask hsv lower upper) i j = Some (if b then 255 else 0)
  ∧ at2 (save_mask_as_color (make_mask hsv lower upper) color) i j
    = Some (if b then color else BLACK).
Proof.
  intros Hr Hc Hall [px Hpx].
  set (c := if b then 255 else 0).
  assert (0 <= c <= 255) as Hcr by (unfold c; destruct b; lia).
  assert (∀ i j v, at2 (make_mask hsv lower upper) i j = Some v →
                   c <= v <= c) as Hconst.
  { rewrite make_mask_passes.
    apply (erode_pass_range KERNEL KERNEL_origin); [lia |].
    apply (dilate_pass_range KERNEL KERNEL_origin); [lia |].
    apply (dilate_pass_range KERNEL KERNEL_origin); [lia |].
    apply (erode_pass_range KERNEL KERNEL_origin); [lia |].
    intros i' j' v. rewrite at2_inRange.
    destruct (at2 hsv i' j') as [px'|] eqn:E; simpl; [| done].
    intros [= <-]. rewrite (Hall _ _ _ E). fold c. lia. }
  assert (is_Some (at2 (make_mask hsv lower upper) i j)) as [v Hv].
  { rewrite make_mask_passes, !at2_morph_pass, at2_inRange, Hpx.
    by eexists. }
  assert (v = c) as -> by (specialize (Hconst _ _ _ Hv); lia).
  split; [exact Hv |].
  rewrite at2_save by (by apply rect_make_mask).
  rewrite Hv, (as_uint8_ok _ Hc). simpl. unfold c. by destruct b.
Qed.

Lemma uniform_image_gives_uniform_output_witness :
  at2 (save_mask_as_color
         (make_mask [[(0, 0, 0); (0, 0, 0)]; [(0, 0, 0); (0, 0, 0)]]
            ROAD_LOWER ROAD_UPPER) GREY) 1 1
  = Some BLACK.
Proof.
  destruct (uniform_image_gives_uniform_output
              [[(0, 0, 0); (0, 0, 0)]; [(0, 0, 0); (0, 0, 0)]]
              ROAD_LOWER ROAD_UPPER GREY false 1 1)
    as [_ H]; [reflexivity | reflexivity | | by eexists | exact H].
  intros [|[|i]] [|[|j]] px; simpl; try done; by intros [= <-].
Defined.

End MaskBuilderMore.

Section Monotone.
Import Img.

Variable kernel : Mask.
Variable op : Z → Z → Z.
Hypothesis op_mono : ∀ a b c d, a <= b → c <= d → op a c <= op b d.

Lemma read_mono (m1 m2 : Mask) (border y x : Z) :
  (∀ i j, option_Forall2 Z.le (at2 m1 i j) (at2 m2 i j)) →
  read m1 border y x <= read m2 border y x.
Proof.
  intros H. unfold read. destruct ((0 <=? y) && (0 <=? x)); [| lia].
  destruct (H (Z.to_nat y) (Z.to_nat x)); simpl; lia.
Qed.

Lemma foldr_fmap_mono {A} (f1 f2 : A → Z) (border : Z) (l : list A) :
  (∀ d, f1 d <= f2 d) →
  foldr op border (f1 <$> l) <= foldr op border (f2 <$> l).
Proof.
  intros H. induction l as [|d l IH]; simpl; [lia | by apply op_mono].
Qed.

(** A pass is monotone: a mask that is larger everywhere gives a result
    that is larger everywhere. *)
Lemma morph_pass_mono (border : Z) (m1 m2 : Mask) :
  (∀ i j, option_Forall2 Z.le (at2 m1 i j) (at2 m2 i j)) →
  ∀ i j, option_Forall2 Z.le
           (at2 (morph_pass op border kernel m1) i j)
           (at2 (morph_pass op border kernel m2) i j).
Proof.
  intros H i j. rewrite !at2_morph_pass.
  destruct (H i j); simpl; constructor.
  apply foldr_fmap_mono. intros d. by apply read_mono.
Qed.

End Monotone.

Section MonotoneMask.
Import Img.

Lemma min_mono a b c d : a <= b → c <= d → Z.min a c <= Z.min b d.
Proof. lia. Qed.

Lemma max_mono a b c d : a <= b → c <= d → Z.max a c <= Z.max b d.
Proof. lia. Qed.

(** X4.  Widening the colour range never turns a sample of the cleaned mask
    off. *)
Theorem widening_range_grows_mask
    (hsv : Image) (l0 l1 l2 u0 u1 u2 l0' l1' l2' u0' u1' u2' : Z)
    (i j : nat) :
  l0' <= l0 ∧ l1' <= l1 ∧ l2' <= l2 →
  u0 <= u0' ∧ u1 <= u1' ∧ u2 <= u2' →
  is_on (make_mask hsv (l0, l1, l2) (u0, u1, u2)) i j = true →
  is_on (make_mask hsv (l0', l1', l2') (u0', u1', u2')) i j = true.
Proof.
  intros Hl Hu.
  assert (∀ i j, option_Forall2 Z.le
            (at2 (make_mask hsv (l0, l1, l2) (u0, u1, u2)) i j)
            (at2 (make_mask hsv (l0', l1', l2') (u0', u1', u2')) i j))
    as Hle.
  { rewrite !make_mask_passes.
    apply (morph_pass_mono KERNEL Z.min min_mono).
    apply (morph_pass_mono KERNEL Z.max max_mono).
    apply (morph_pass_mono KERNEL Z.max max_mono).
    apply (morph_pass_mono KERNEL Z.min min_mono).
    intros i' j'. rewrite !at2_inRange.
    destruct (at2 hsv i' j') as [[[c0 c1] c2]|]; [| constructor].
    apply Some_Forall2.
    destruct (in_bounds (l0, l1, l2) (u0, u1, u2) (c0, c1, c2)) eqn:E.
    - apply in_bounds_spec in E.
      assert (in_bounds (l0', l1', l2') (u0', u1', u2') (c0, c1, c2) = true)
        as -> by (apply in_bounds_spec; lia).
      lia.
    - destruct (in_bounds (l0', l1', l2') (u0', u1', u2') (c0, c1, c2));
        lia. }
  rewrite !is_on_spec. intros (v & Hv & Hpos).
  specialize (Hle i j). rewrite Hv in Hle. inversion Hle as [? v' Hvv' |].
  exists v'. split; [done | lia].
Qed.

Lemma widening_range_grows_mask_witness :
  is_on (make_mask [[(25, 50, 130); (25, 50, 130)]] (0, 0, 0) (179, 255, 255))
    0 0
  = true.
Proof.
  apply (widening_range_grows_mask [[(25, 50, 130); (25, 50, 130)]]
           20 40 120 35 255 255 0 0 0 179 255 255 0 0); [lia | lia |].
  reflexivity.
Defined.

End MonotoneMask.

(* ===================================================================== *)
(** ** More on the output directories *)
(* ===================================================================== *)

Section EnsureDirsMore.
Import Batch.

(** Making an existing directory again, or the directories on the way to a
    new one, fails in two ways only. *)
Lemma mkdir_two_error (a b : string) (fs : FS) (e : OSError) :
  mkdir_parents [b; a] true fs = inl e →
  (e = FileExistsError ∨ e = NotADirectoryError)
  ∧ ∃ q c, (q = [a] ∨ q = [a; b]) ∧ fs !! q = Some (File c).
Proof.
  rewrite mkdir_parents_cons. change (reverse [b; a]) with [a; b].
  rewrite os_mkdir_two.
  destruct (fs !! [a]) as [[|c]|] eqn:Ea.
  - destruct (fs !! [a; b]) as [[|c]|] eqn:Eb; [| | done].
    + simpl. by rewrite Eb.
    + simpl. rewrite Eb. simpl. intros [= <-]. split; [by left |].
      exists [a; b], c. split; [by right | done].
  - destruct (negb true || negb (is_dir fs [a; b])); [| done].
    intros [= <-]. split; [by right |].
    exists [a], c. split; [by left | done].
  - rewrite mkdir_parents_cons. change (reverse [a]) with [a].
    rewrite os_mkdir_one, Ea. unfold mkdir_flat. rewrite os_mkdir_two.
    rewrite lookup_insert_eq, lookup_insert_ne by done.
    destruct (fs !! [a; b]) as [[|c]|] eqn:Eb; [| | done].
    + simpl. rewrite lookup_insert_ne by done. by rewrite Eb.
    + simpl. rewrite lookup_insert_ne by done. rewrite Eb. simpl.
      intros [= <-]. split; [by left |].
      exists [a; b], c. split; [by right | done].
Qed.

(** When [ensure_dirs] raises, a regular file sits at one of the three
    paths; nothing was printed or written, and the store gained at most
    directories among them. *)
Lemma ensure_dirs_raised (w w' : World) (e : OSError) :
  ensure_dirs w = (Raised e, w') →
  (e = FileExistsError ∨ e = NotADirectoryError)
  ∧ (∃ q c, output_dir q ∧ fs w !! q = Some (File c))
  ∧ stdout w' = stdout w ∧ imwrites w' = imwrites w
  ∧ grows (fs w) (fs w') output_dir.
Proof.
  unfold ensure_dirs, mbind, M_bind, bind, lift_fs.
  change (mkdir LANES_DIR true true (fs w))
    with (mkdir_parents ["lanes"; "output"]%string true (fs w)).
  destruct (mkdir_parents ["lanes"; "output"]%string true (fs w))
    as [e1 | fs1] eqn:E1.
  - intros [= <- <-].
    apply mkdir_two_error in E1 as (He & q & c & Hq & Hf).
    split; [done |]. split; [| by split; [| split; [| apply grows_refl]]].
    exists q, c. split; [| done].
    destruct Hq as [-> | ->]; [by left | right; by left].
  - cbn [fs stdout imwrites].
    change (mkdir ROADS_DIR true true fs1)
      with (mkdir_parents ["roads"; "output"]%string true fs1).
    destruct (mkdir_parents ["roads"; "output"]%string true fs1)
      as [e2 | fs2] eqn:E2; [| done].
    intros [= <- <-]. cbn [fs stdout imwrites].
    apply mkdir_parents_inr in E1 as [Hg1 _].
    apply (grows_weaken _ _ _ _ on_the_way_LANES) in Hg1.
    apply mkdir_two_error in E2 as (He & q & c & Hq & Hf).
    split; [done |]. split; [| done].
    exists q, c. split; [destruct Hq as [-> | ->]; [by left | right; by right] |].
    destruct (Hg1 q) as [<- | (_ & Hd & _)]; [done | congruence].
Qed.

(** X6.  [ensure_dirs] is idempotent: on the store it left it returns without
    changing anything.  It only adds: every entry of the store is kept as
    it is, and every new entry is a directory at [output], [output/lanes]
    or [output/roads]. *)
Theorem ensure_dirs_idempotent (w w1 : World) :
  ensure_dirs w = (Returned tt, w1) →
  ensure_dirs w1 = (Returned tt, w1)
  ∧ stdout w1 = stdout w ∧ imwrites w1 = imwrites w
  ∧ is_dir (fs w1) LANES_DIR = true ∧ is_dir (fs w1) ROADS_DIR = true
  ∧ (∀ q x, fs w !! q = Some x → fs w1 !! q = Some x)
  ∧ (∀ q, fs w1 !! q ≠ fs w !! q →
          output_dir q ∧ fs w !! q = None ∧ fs w1 !! q = Some Dir).
Proof.
  intros He. destruct (ensure_dirs_inv w w1 He) as (Hs & Hi & Hg & Hl & Hr).
  split.
  { apply ensure_dirs_settled; [done | done |].
    by apply (ensure_dirs_output w). }
  do 4 (split; [done |]). split.
  - intros q x. apply (grows_Some _ _ _ _ _ Hg).
  - intros q Hne. destruct (Hg q) as [E | (? & ? & ?)]; [done | done].
Qed.

Lemma ensure_dirs_idempotent_witness :
  ensure_dirs (ensure_dirs Sample.bare).2
  = (Returned tt, (ensure_dirs Sample.bare).2).
Proof.
  destruct (ensure_dirs_idempotent Sample.bare (ensure_dirs Sample.bare).2)
    as [H _]; [vm_compute; reflexivity | exact H].
Defined.

End EnsureDirsMore.

Section MainRaises.
Import Img Batch.

Variable decode : list Byte.byte → option Image.
Variable encode : Image → list Byte.byte.
Variable bgr2hsv : Pixel → Pixel.


(** X8.  With a regular file at [output], and so nothing below it, [main] raises
    [NotADirectoryError] and leaves the world as it found it. *)
Theorem output_is_a_file_raises (w : World) (c : list Byte.byte) :
  fs w !! OUTPUT_DIR = Some (File c) →
  fs w !! LANES_DIR = None →
  main decode encode bgr2hsv w = (Raised NotADirectoryError, w).
Proof.
  intros Ho Hl. apply main_raises.
  unfold ensure_dirs, mbind, M_bind, bind, lift_fs.
  change (mkdir LANES_DIR true true (fs w))
    with (mkdir_parents ["lanes"; "output"]%string true (fs w)).
  rewrite mkdir_parents_cons.
  change (reverse ["lanes"; "output"]%string) with LANES_DIR.
  unfold LANES_DIR at 1. simpl app. rewrite os_mkdir_two.
  change ["output"%string] with OUTPUT_DIR. rewrite Ho.
  unfold is_dir. change ["output"; "lanes"]%string with LANES_DIR.
  by rewrite Hl.
Qed.

End MainRaises.


Lemma output_is_a_file_raises_witness :
  Sample.run (Batch.mkWorld {[ Batch.OUTPUT_DIR := Batch.File [] ]} [] [])
  = (Batch.Raised Batch.NotADirectoryError,
     Batch.mkWorld {[ Batch.OUTPUT_DIR := Batch.File [] ]} [] []).
Proof.
  apply (output_is_a_file_raises Sample.decode Sample.encode Sample.bgr2hsv
           (Batch.mkWorld {[ Batch.OUTPUT_DIR := Batch.File [] ]} [] []) []);
    reflexivity.
Defined.

(* ===================================================================== *)
(** ** What a run leaves in the store *)
(* ===================================================================== *)

Section StoreAfterRun.
Import Img Batch.

Variable decode : list Byte.byte → option Image.
Variable encode : Image → list Byte.byte.
Variable bgr2hsv : Pixel → Pixel.

Lemma is_dir_Some_Dir (fs : FS) (q : Path) :
  fs !! q = Some Dir → is_dir fs q = true.
Proof. destruct q; simpl; [done |]. by intros ->. Qed.

Lemma is_dir_true (fs : FS) (q : Path) :
  is_dir fs q = true → q = [] ∨ fs !! q = Some Dir.
Proof.
  destruct q as [|a q]; [by left |]. simpl.
  destruct (fs !! (a :: q)) as [[|]|]; try done. by right.
Qed.

(** [imwrite] never removes an entry and never replaces a directory. *)
Lemma imwrite_fs_keeps (p : Path) (img : Image) (fs : FS) (q : Path) :
  (is_Some (fs !! q) → is_Some (imwrite_fs encode p img fs !! q))
  ∧ (is_dir fs q = true → is_dir (imwrite_fs encode p img fs) q = true).
Proof.
  unfold imwrite_fs.
  destruct (is_dir fs (parent p) && negb (is_dir fs p)) eqn:E; [| done].
  apply andb_true_iff in E as [_ Hp%negb_true_iff].
  destruct (decide (p = q)) as [<- | Hne].
  - split; [by rewrite lookup_insert_eq | congruence].
  - split; [by rewrite lookup_insert_ne |].
    intros Hq. apply is_dir_true in Hq as [-> | Hq]; [done |].
    apply is_dir_Some_Dir. by rewrite lookup_insert_ne.
Qed.

Lemma apply_writes_keeps (ws : list (Path * Image)) (fs : FS) (q : Path) :
  (is_Some (fs !! q) → is_Some (apply_writes encode fs ws !! q))
  ∧ (is_dir fs q = true → is_dir (apply_writes encode fs ws) q = true).
Proof.
  revert fs. induction ws as [|pw ws IH]; intros fs; [done |]. simpl.
  destruct (imwrite_fs_keeps pw.1 pw.2 fs q) as [H1 H2].
  destruct (IH (imwrite_fs encode pw.1 pw.2 fs)) as [H3 H4]. auto.
Qed.

(** A write to a free place of an existing directory is in the store at the
    end, whatever the other writes, as long as they go elsewhere. *)
Lemma apply_writes_lookup (ws : list (Path * Image)) (fs : FS)
    (q : Path) (img : Image) :
  NoDup (fst <$> ws) → (q, img) ∈ ws →
  (∀ pw, pw ∈ ws → pw.1 ≠ parent q) →
  is_dir fs (parent q) = true → is_dir fs q = false →
  apply_writes encode fs ws !! q = Some (File (encode img)).
Proof.
  revert fs. induction ws as [|pw ws IH]; intros fs Hnd Hin Hpar Hd Hq;
    [by apply elem_of_nil in Hin |].
  rewrite fmap_cons in Hnd. apply NoDup_cons in Hnd as [Hfresh Hnd].
  simpl. apply elem_of_cons in Hin as [<- | Hin].
  - rewrite apply_writes_ne.
    + unfold imwrite_fs. simpl. rewrite Hd, Hq. simpl.
      by rewrite lookup_insert_eq.
    + intros pw' Hpw' E. apply Hfresh. simpl. rewrite <- E.
      by apply (list_elem_of_fmap_2 fst).
  - assert (pw.1 ≠ q) as Hne.
    { intros E. apply Hfresh. rewrite E.
      by apply (list_elem_of_fmap_2 fst ws (q, img)). }
    apply IH; [done | done | | |].
    + intros pw' Hpw'. apply Hpar. by right.
    + rewrite (is_dir_lookup fs); [done |].
      apply imwrite_fs_ne, Hpar. by left.
    + rewrite (is_dir_lookup fs); [done |]. by apply imwrite_fs_ne.
Qed.

Lemma parent_child (dir : Path) (n : string) : parent (dir ++ [n]) = dir.
Proof. apply removelast_last. Qed.

Lemma output_file_not_output_dir (dir : Path) (n : string) :
  dir = LANES_DIR ∨ dir = ROADS_DIR → ¬ output_dir (dir ++ [n]).
Proof. by intros [-> | ->] [? | [? | ?]]. Qed.

(** *** Nothing but the outputs changes *)

(** X9.  Whatever its result, a run leaves every entry of the store in place,
    leaves directories directories, and changes nothing except at [output],
    [output/lanes], [output/roads] and at the file names it called
    [imwrite] with, which lie directly inside the two output directories:
    the input directory and its files are never written, and an output
    file of an earlier run that no image of this run is named after stays
    as it is. *)
Theorem main_changes_outputs_only
    (w w' : World) (r : Result Z) :
  main decode encode bgr2hsv w = (r, w') →
  ∃ ws,
    imwrites w' = imwrites w ++ ws
    ∧ (∀ pw, pw ∈ ws →
         ∃ n, pw.1 = LANES_DIR ++ [n] ∨ pw.1 = ROADS_DIR ++ [n])
    ∧ (∀ q, ¬ output_dir q → (∀ pw, pw ∈ ws → pw.1 ≠ q) →
            fs w' !! q = fs w !! q)
    ∧ (∀ q, ¬ output_dir q → not_output_file q → fs w' !! q = fs w !! q)
    ∧ (∀ q, is_Some (fs w !! q) → is_Some (fs w' !! q))
    ∧ (∀ q, is_dir (fs w) q = true → is_dir (fs w') q = true).
Proof.
  intros Hrun.
  destruct (ensure_dirs_result w) as [[w1 He] | (e & w1 & He)].
  - rewrite (main_outcome decode encode bgr2hsv w w1 He) in Hrun.
    injection Hrun as <- <-.
    destruct (ensure_dirs_inv w w1 He) as (_ & _ & Hg & _).
    set (ws := (outcome decode bgr2hsv (fs w)).2).
    assert (∀ q, ¬ output_dir q → (∀ pw, pw ∈ ws → pw.1 ≠ q) →
              apply_writes encode (fs w1) ws !! q = fs w !! q) as Hframe.
    { intros q Hq Hws. rewrite apply_writes_ne by done.
      by apply (grows_other _ _ _ _ Hg). }
    exists ws. cbn [fs imwrites]. split; [done |].
    split; [intros pw; apply outcome_writes_path |].
    split; [exact Hframe |]. split; [| split].
    + intros q Hq Hnf. apply Hframe; [done |].
      intros pw [n Hn]%outcome_writes_path E. rewrite E in Hn.
      destruct (Hnf n). by destruct Hn.
    + intros q [x Hx]. apply apply_writes_keeps.
      rewrite (grows_Some _ _ _ _ _ Hg Hx). by eexists.
    + intros q Hq. apply apply_writes_keeps.
      by apply (grows_is_dir _ _ _ _ Hg).
  - rewrite (main_raises decode encode bgr2hsv _ _ _ He) in Hrun.
    injection Hrun as <- <-.
    destruct (ensure_dirs_raised w w1 e He) as (_ & _ & _ & Hi & Hg).
    exists []. rewrite app_nil_r. split; [done |].
    split; [by intros pw ?%elem_of_nil |].
    split; [intros q Hq _; by apply (grows_other _ _ _ _ Hg) |].
    split; [intros q Hq _; by apply (grows_other _ _ _ _ Hg) |].
    split.
    + intros q [x Hx]. rewrite (grows_Some _ _ _ _ _ Hg Hx). by eexists.
    + intros q. by apply (grows_is_dir _ _ _ _ Hg).
Qed.

(** *** The output files *)

Lemma discovered_input (fs : FS) (p : Path) :
  p ∈ discovered fs → path_exists fs INPUT_DIR = true.
Proof.
  unfold discovered. rewrite sorted_elem.
  intros (_ & _ & _ & _ & Hd)%glob_elem. revert Hd. simpl.
  by destruct (fs !! INPUT_DIR) as [[|]|].
Qed.

Section OneImage.

Variables w w1 : World.
Variable p : Path.
Variable img : Image.
Hypothesis ensured : ensure_dirs w = (Returned tt, w1).
Hypothesis found : p ∈ discovered (fs w).
Hypothesis loads : imread_fs decode (fs w) p = Some img.

Lemma batch_of_image :
  main decode encode bgr2hsv w
  = (Returned 0,
     mkWorld
       (apply_writes encode (fs w1)
          (expected_writes decode bgr2hsv (fs w) (discovered (fs w))))
       (stdout w ++ expected_warnings decode (fs w) (discovered (fs w))
          ++ [done_line])
       (imwrites w
          ++ expected_writes decode bgr2hsv (fs w) (discovered (fs w)))).
Proof.
  apply main_batch; [done | by eapply discovered_input |].
  intros E. rewrite E in found. by apply elem_of_nil in found.
Qed.

Lemma stored_output (dir : Path) (out : Image) :
  dir = LANES_DIR ∨ dir = ROADS_DIR →
  (dir ++ [name p], out)
    ∈ expected_writes decode bgr2hsv (fs w) (discovered (fs w)) →
  is_dir (fs w) (dir ++ [name p]) = false →
  apply_writes encode (fs w1)
    (expected_writes decode bgr2hsv (fs w) (discovered (fs w)))
  !! (dir ++ [name p])
  = Some (File (encode out)).
Proof.
  intros Hdir Hin Hfree.
  destruct (ensure_dirs_inv w w1 ensured) as (_ & _ & Hg & Hl & Hr).
  apply apply_writes_lookup.
  - apply expected_writes_NoDup; [apply discovered_NoDup |].
    by intros q [? _]%discovered_elem.
  - done.
  - rewrite parent_child.
    intros pw (q & i & _ & _ & [-> | ->])%expected_writes_path;
      destruct Hdir as [-> | ->]; simpl; intros E; discriminate E.
  - rewrite parent_child. by destruct Hdir as [-> | ->].
  - rewrite (is_dir_lookup (fs w)); [done |].
    apply (grows_other _ _ _ _ Hg). by apply output_file_not_output_dir.
Qed.

End OneImage.

(** X10.  After a run, the lane and road outputs of every discovered image that
    loads are in the store, under the name of the image, holding what
    [imwrite] encodes for the two arrays, and replacing a file that was
    there; the only thing that can be in the way is a directory of that
    name. *)
Theorem outputs_are_stored (w w1 : World) (p : Path) (img : Image) :
  ensure_dirs w = (Returned tt, w1) →
  p ∈ discovered (fs w) →
  imread_fs decode (fs w) p = Some img →
  is_dir (fs w) (LANES_DIR ++ [name p]) = false →
  is_dir (fs w) (ROADS_DIR ++ [name p]) = false →
  ∃ w',
    main decode encode bgr2hsv w = (Returned 0, w')
    ∧ fs w' !! (LANES_DIR ++ [name p])
      = Some (File (encode (lane_output bgr2hsv img)))
    ∧ fs w' !! (ROADS_DIR ++ [name p])
      = Some (File (encode (road_output bgr2hsv img))).
Proof.
  intros He Hp Hload Hl Hr.
  destruct (expected_writes_elem decode bgr2hsv (fs w) _ p img Hp Hload)
    as [Hlane Hroad].
  eexists. split; [by apply (batch_of_image w w1 p) |].
  cbn [fs]. split.
  - apply (stored_output w w1 p He LANES_DIR); [by left | exact Hlane | done].
  - apply (stored_output w w1 p He ROADS_DIR); [by right | exact Hroad | done].
Qed.

(** X11.  The return value of [imwrite] is not looked at: when a directory has
    the name of an output file the call is made and lost, the directory
    stays, and the run goes on to return 0. *)
Theorem directory_in_the_way_is_silent
    (w w1 : World) (p : Path) (img : Image) :
  ensure_dirs w = (Returned tt, w1) →
  p ∈ discovered (fs w) →
  imread_fs decode (fs w) p = Some img →
  is_dir (fs w) (LANES_DIR ++ [name p]) = true →
  ∃ w',
    main decode encode bgr2hsv w = (Returned 0, w')
    ∧ (LANES_DIR ++ [name p], lane_output bgr2hsv img) ∈ imwrites w'
    ∧ fs w' !! (LANES_DIR ++ [name p]) = Some Dir.
Proof.
  intros He Hp Hload Hdir.
  destruct (expected_writes_elem decode bgr2hsv (fs w) _ p img Hp Hload)
    as [Hlane _].
  destruct (ensure_dirs_inv w w1 He) as (_ & _ & Hg & _).
  eexists. split; [by apply (batch_of_image w w1 p) |].
  cbn [fs imwrites]. split.
  - apply elem_of_app. right. exact Hlane.
  - assert (is_dir
              (apply_writes encode (fs w1)
                 (expected_writes decode bgr2hsv (fs w) (discovered (fs w))))
              (LANES_DIR ++ [name p]) = true) as Hd.
    { apply apply_writes_keeps. by apply (grows_is_dir _ _ _ _ Hg). }
    by apply is_dir_true in Hd as [? | ?].
Qed.

End StoreAfterRun.

Lemma main_changes_outputs_only_witness :
  Batch.fs (Sample.run Sample.three).2 !! ["input"; "b.jpg"]%string
  = Batch.fs Sample.three !! ["input"; "b.jpg"]%string.
Proof.
  destruct (main_changes_outputs_only
              Sample.decode Sample.encode Sample.bgr2hsv
              Sample.three (Sample.run Sample.three).2
              (Sample.run Sample.three).1)
    as (ws & _ & _ & _ & H & _); [vm_compute; reflexivity |].
  apply H.
  - by intros [? | [? | ?]].
  - intros n. split; intros E; discriminate E.
Defined.

Lemma outputs_are_stored_witness :
  ∃ w',
    Sample.run Sample.three = (Batch.Returned 0, w')
    ∧ Batch.fs w' !! ["output"; "lanes"; "b.jpg"]%string
      = Some (Batch.File [Byte.x2a; Byte.x2a]).
Proof.
  destruct (outputs_are_stored Sample.decode Sample.encode Sample.bgr2hsv
              Sample.three (Batch.ensure_dirs Sample.three).2
              ["input"; "b.jpg"]%string [[(25, 50, 130); (25, 50, 130)]])
    as (w' & Hrun & Hl & _);
    [vm_compute; reflexivity | | reflexivity .. |].
  - vm_compute. right. left.
  - exists w'. split; [exact Hrun | exact Hl].
Defined.

Lemma directory_in_the_way_is_silent_witness :
  ∃ w',
    Sample.run Sample.blocked = (Batch.Returned 0, w')
    ∧ Batch.fs w' !! ["output"; "lanes"; "b.jpg"]%string = Some Batch.Dir.
Proof.
  destruct (directory_in_the_way_is_silent
              Sample.decode Sample.encode Sample.bgr2hsv
              Sample.blocked (Batch.ensure_dirs Sample.blocked).2
              ["input"; "b.jpg"]%string [[(25, 50, 130); (25, 50, 130)]])
    as (w' & Hrun & _ & Hd);
    [vm_compute; reflexivity | | reflexivity | reflexivity |].
  - vm_compute. left.
  - exists w'. split; [exact Hrun | exact Hd].
Defined.

(* ===================================================================== *)
(** ** The output files of a batch with one unreadable image *)
(* ===================================================================== *)

Section OutputFiles.
Import Img Batch.

Variable decode : list Byte.byte → option Image.
Variable encode : Image → list Byte.byte.
Variable bgr2hsv : Pixel → Pixel.






End OutputFiles.



(* ===================================================================== *)
(** ** Which images are discovered, and in which order *)
(* ===================================================================== *)

Section Suffix.

Lemma app_String (c : Ascii.ascii) (a b : string) :
  String c a +:+ b = String c (a +:+ b).
Proof. reflexivity. Qed.

Lemma string_length_app (a b : string) :
  String.length (a +:+ b) = (String.length a + String.length b)%nat.
Proof.
  induction a as [|c a IH]; [done |]. rewrite app_String. simpl.
  by rewrite IH.
Qed.

Lemma substring_whole (b : string) :
  String.substring 0 (String.length b) b = b.
Proof. induction b as [|c b IH]; [done |]. simpl. by rewrite IH. Qed.

Lemma substring_app_r (a b : string) :
  String.substring (String.length a) (String.length b) (a +:+ b) = b.
Proof.
  induction a as [|c a IH]; [apply substring_whole |].
  rewrite app_String. exact IH.
Qed.

Lemma substring_split (s : string) (m : nat) :
  (m ≤ String.length s)%nat →
  s = String.substring 0 m s +:+ String.substring m (String.length s - m) s.
Proof.
  revert m. induction s as [|c s IH]; intros [|m] Hm; simpl in Hm;
    try lia.
  - done.
  - simpl. by rewrite substring_whole.
  - simpl. rewrite app_String. f_equal. apply IH. lia.
Qed.

(** [ends_with] is the suffix test. *)
Lemma ends_with_spec (suffix s : string) :
  Batch.ends_with suffix s = true ↔ ∃ stem, s = stem +:+ suffix.
Proof.
  unfold Batch.ends_with. rewrite andb_true_iff, Nat.leb_le, String.eqb_eq.
  split.
  - intros [Hle Hsub].
    exists (String.substring 0 (String.length s - String.length suffix) s).
    rewrite <- Hsub at 2.
    rewrite (substring_split s (String.length s - String.length suffix))
      at 1 by lia.
    do 2 f_equal. lia.
  - intros [stem ->]. rewrite string_length_app. split; [lia |].
    replace (String.length stem + String.length suffix
             - String.length suffix)%nat
      with (String.length stem) by lia.
    apply substring_app_r.
Qed.

End Suffix.

Section Discovery.
Import Batch.

Lemma glob_elem_2 (fs : FS) (dir : Path) (suffix : string) (p : Path) :
  is_dir fs dir = true → p ≠ [] → parent p = dir →
  ends_with suffix (name p) = true → is_Some (fs !! p) →
  p ∈ glob fs dir suffix.
Proof.
  intros Hd Hne Hp He Hin. unfold glob. rewrite Hd.
  apply list_elem_of_filter. split; [done |].
  by apply elem_of_elements, elem_of_dom.
Qed.

Lemma name_child (dir : Path) (n : string) : name (dir ++ [n]) = n.
Proof. apply last_last. Qed.

(** X12.  The driver works on the entries directly inside [input] whose name ends
    in [.jpg], whatever they are, and on nothing else: not on entries of
    sub-directories, and on nothing at all when [input] is not a directory.
    It takes each once, in ascending order of path. *)
Theorem discovered_spec (fs : FS) :
  NoDup (discovered fs)
  ∧ Sorted path_le (discovered fs)
  ∧ ∀ p, p ∈ discovered fs
         ↔ is_dir fs INPUT_DIR = true
           ∧ ∃ stem, p = INPUT_DIR ++ [stem +:+ ".jpg"]
                     ∧ is_Some (fs !! p).
Proof.
  split; [apply discovered_NoDup |]. split.
  { unfold discovered, sorted. apply Sorted_merge_sort. apply _. }
  intros p. unfold discovered. rewrite sorted_elem. split.
  - intros (Hne & Hp & [stem Hs]%ends_with_spec & Hin & Hd)%glob_elem.
    split; [done |]. exists stem. split; [| done].
    rewrite <- Hs, <- Hp. by apply parent_name.
  - intros (Hd & stem & -> & Hin). apply glob_elem_2; [done | done | | | done].
    + apply parent_child.
    + rewrite name_child. apply ends_with_spec. by eexists.
Qed.

End Discovery.

(* ===================================================================== *)
(** ** The count of a batch *)
(* ===================================================================== *)

Section Accounting.
Import Img Batch.

Variable decode : list Byte.byte → option Image.
Variable encode : Image → list Byte.byte.
Variable bgr2hsv : Pixel → Pixel.

Lemma readable_split (fs : FS) (images : list Path) :
  (length (filter (λ p, readable decode fs p = true) images)
   + length (filter (λ p, readable decode fs p = false) images))%nat
  = length images.
Proof.
  induction images as [|p images IH]; [done |].
  rewrite !filter_cons. destruct (readable decode fs p); simpl; lia.
Qed.

(** X13.  A batch over a non-empty list of discovered images, with [R] of them
    loading and [U] failing to load: [R + U] is the number of discovered
    images, the run returns 0 after [2 * R] calls of [imwrite], and it
    prints [U] warnings and then the closing line. *)
Theorem batch_accounting (w w1 : World) :
  ensure_dirs w = (Returned tt, w1) →
  path_exists (fs w) INPUT_DIR = true →
  discovered (fs w) ≠ [] →
  let R := length (filter (λ p, readable decode (fs w) p = true)
                     (discovered (fs w))) in
  let U := length (filter (λ p, readable decode (fs w) p = false)
                     (discovered (fs w))) in
  ∃ w',
    main decode encode bgr2hsv w = (Returned 0, w')
    ∧ (R + U)%nat = length (discovered (fs w))
    ∧ length (imwrites w') = (length (imwrites w) + 2 * R)%nat
    ∧ stdout w'
      = stdout w
        ++ (warning_line
              <$> filter (λ p, readable decode (fs w) p = false)
                    (discovered (fs w)))
        ++ [done_line]
    ∧ length (stdout w') = (length (stdout w) + U + 1)%nat.
Proof.
  intros He Hex Hne R U.
  eexists. split; [by apply (main_batch decode encode bgr2hsv w w1) |].
  cbn [stdout imwrites]. split; [apply readable_split |]. split; [| split].
  - by rewrite length_app, expected_writes_length.
  - by rewrite expected_warnings_filter.
  - rewrite expected_warnings_filter, !length_app, length_fmap. simpl.
    unfold U. lia.
Qed.

End Accounting.

Lemma batch_accounting_witness :
  ∃ w', Sample.run Sample.three = (Batch.Returned 0, w')
        ∧ length (Batch.imwrites w') = 4%nat
        ∧ length (Batch.stdout w') = 2%nat.
Proof.
  destruct (batch_accounting Sample.decode Sample.encode Sample.bgr2hsv
              Sample.three (Batch.ensure_dirs Sample.three).2)
    as (w' & Hrun & _ & Hw & _ & Hs);
    [vm_compute; reflexivity | vm_compute; reflexivity | | ].
  - vm_compute. discriminate.
  - exists w'. split; [exact Hrun |]. split; [exact Hw | exact Hs].
Defined.

(* ===================================================================== *)
(** ** The annotation converter: which lines become objects *)
(* ===================================================================== *)

Section ConverterFacts.

Variable float : Type.
Variable fadd fsub fmul fdiv : float → float → float.
Variable of_int : Z → float.
Variable to_int : string → option Z.
Variable to_float : string → option float.
Variable fields : string → list string.

Abbreviation Object := (Yolo.Object float).
Abbreviation object_of_line :=
  (Yolo.object_of_line float fadd fsub fmul fdiv of_int to_int to_float
     fields).
Abbreviation read_objects :=
  (Yolo.read_objects float fadd fsub fmul fdiv of_int to_int to_float fields).
Abbreviation convert_file :=
  (Yolo.convert_file float fadd fsub fmul fdiv of_int to_int to_float fields).
Abbreviation yolo_to_box2d :=
  (Yolo.yolo_to_box2d float fadd fsub fmul fdiv of_int).
Abbreviation oid := (Yolo.id float).

(** The loop appends, in the order of the lines, the objects of the lines
    whose body does not end in [continue]. *)
Lemma read_objects_spec (w h : Z) (lines : list string) (idx : nat)
    (acc : list Object) :
  read_objects w h idx lines acc
  = acc ++ omap id (imap (λ i, object_of_line w h (idx + i)) lines).
Proof.
  revert idx acc. induction lines as [|line rest IH]; intros idx acc.
  - simpl. by rewrite app_nil_r.
  - cbn [Yolo.read_objects]. rewrite imap_cons. cbn [omap list_omap id].
    rewrite Nat.add_0_r.
    assert (imap ((λ i, object_of_line w h (idx + i)) ∘ S) rest
            = imap (λ i, object_of_line w h (S idx + i)) rest) as ->.
    { apply imap_ext. intros i x _. simpl. f_equal. lia. }
    destruct (object_of_line w h idx line) as [o|]; rewrite IH.
    + by rewrite <- app_assoc.
    + done.
Qed.

Lemma object_of_line_id (w h : Z) (idx : nat) (line : string) (o : Object) :
  object_of_line w h idx line = Some o → oid o = idx.
Proof.
  unfold Yolo.object_of_line.
  destruct (negb _); [done |].
  destruct (Yolo.parse_numbers _ _ _ _) as [[c [[[x y] nw] nh]]|]; [| done].
  destruct (Yolo.CLASS_MAPPING !! c); [| done]. by intros [= <-].
Qed.

(** What makes a line valid, spelled out. *)
Lemma object_of_line_Some (w h : Z) (idx : nat) (line : string)
    (o : Object) :
  object_of_line w h idx line = Some o
  ↔ ∃ p0 p1 p2 p3 p4 class_no x y nw nh cat,
      fields line = [p0; p1; p2; p3; p4]
      ∧ to_int p0 = Some class_no
      ∧ to_float p1 = Some x ∧ to_float p2 = Some y
      ∧ to_float p3 = Some nw ∧ to_float p4 = Some nh
      ∧ Yolo.CLASS_MAPPING !! class_no = Some cat
      ∧ o = Yolo.mkObject float cat idx (Yolo.mkAttributes false false "none")
              (yolo_to_box2d x y nw nh w h).
Proof.
  unfold Yolo.object_of_line. split.
  - destruct (fields line) as [|p0 [|p1 [|p2 [|p3 [|p4 [|p5 rest]]]]]];
      try done.
    cbn [length Nat.eqb negb]. unfold Yolo.parse_numbers.
    cbn -[Yolo.CLASS_MAPPING].
    destruct (to_int p0) as [c|] eqn:E0; [| done]. cbn -[Yolo.CLASS_MAPPING].
    destruct (to_float p1) as [x|] eqn:E1; [| done]. cbn -[Yolo.CLASS_MAPPING].
    destruct (to_float p2) as [y|] eqn:E2; [| done]. cbn -[Yolo.CLASS_MAPPING].
    destruct (to_float p3) as [nw|] eqn:E3; [| done]. cbn -[Yolo.CLASS_MAPPING].
    destruct (to_float p4) as [nh|] eqn:E4; [| done]. cbn -[Yolo.CLASS_MAPPING].
    destruct (Yolo.CLASS_MAPPING !! c) as [cat|] eqn:Ec; [| done].
    intros [= <-]. by exists p0, p1, p2, p3, p4, c, x, y, nw, nh, cat.
  - intros (p0 & p1 & p2 & p3 & p4 & c & x & y & nw & nh & cat
            & -> & E0 & E1 & E2 & E3 & E4 & Ec & ->).
    cbn [length Nat.eqb negb]. unfold Yolo.parse_numbers.
    cbn -[Yolo.CLASS_MAPPING]. rewrite E0. cbn -[Yolo.CLASS_MAPPING].
    rewrite E1. cbn -[Yolo.CLASS_MAPPING]. rewrite E2.
    cbn -[Yolo.CLASS_MAPPING]. rewrite E3. cbn -[Yolo.CLASS_MAPPING].
    rewrite E4. cbn -[Yolo.CLASS_MAPPING]. by rewrite Ec.
Qed.

Lemma elem_of_read_objects (w h : Z) (lines : list string) (o : Object) :
  o ∈ read_objects w h 0 lines []
  ↔ ∃ line, lines !! oid o = Some line
            ∧ object_of_line w h (oid o) line = Some o.
Proof.
  rewrite read_objects_spec, app_nil_l, list_elem_of_omap. split.
  - intros (x & Hx & Hid). simpl in Hid. subst x.
    apply elem_of_lookup_imap in Hx as (i & line & Ho & Hl).
    simpl in Ho. symmetry in Ho.
    rewrite (object_of_line_id _ _ _ _ _ Ho). eauto.
  - intros (line & Hl & Ho). exists (Some o). split; [| done].
    rewrite <- Ho. apply (elem_of_lookup_imap_2 _ lines line (oid o)).
    done.
Qed.

(** The identifiers of the objects read from [lines], from the index [idx]
    on, increase strictly and stay within the lines read. *)
Lemma read_objects_ids (w h : Z) (lines : list string) (idx : nat) :
  let ids :=
    oid <$> omap id
               (imap (λ i, object_of_line w h (idx + i)) lines) in
  StronglySorted lt ids
  ∧ Forall (λ n, idx ≤ n < idx + length lines)%nat ids.
Proof.
  revert idx. induction lines as [|line rest IH]; intros idx; simpl.
  - split; constructor.
  - rewrite Nat.add_0_r.
    assert (imap ((λ i, object_of_line w h (idx + i)) ∘ S) rest
            = imap (λ i, object_of_line w h (S idx + i)) rest) as ->.
    { apply imap_ext. intros i x _. simpl. f_equal. lia. }
    destruct (IH (S idx)) as [Hs Hb].
    assert (Forall (λ n, idx ≤ n < idx + S (length rest))%nat
              (oid <$> omap id
                 (imap (λ i, object_of_line w h (S idx + i)) rest))) as Hb'.
    { eapply Forall_impl; [exact Hb |]. simpl. intros; lia. }
    destruct (object_of_line w h idx line) as [o|] eqn:Ho; simpl.
    + rewrite (object_of_line_id _ _ _ _ _ Ho). split.
      * constructor; [done |].
        eapply Forall_impl; [exact Hb |]. simpl. intros; lia.
      * constructor; [lia | done].
    + done.
Qed.

(** X14.  Every object comes from a line of the file that has exactly five
    fields, an integer class that is a key of [Yolo.CLASS_MAPPING] and four
    floats; its [id] is the index of that line among all the lines of the
    file, skipped ones included, its category is the name the class maps
    to, and its box is [yolo_to_box2d] of the four floats and the image
    size.  Every such line has its object. *)
Theorem objects_are_the_valid_lines
    (img_width img_height : Z) (lines : list string) (o : Object) :
  o ∈ read_objects img_width img_height 0 lines []
  ↔ ∃ line p0 p1 p2 p3 p4 class_no x y nw nh cat,
      lines !! oid o = Some line
      ∧ fields line = [p0; p1; p2; p3; p4]
      ∧ to_int p0 = Some class_no
      ∧ to_float p1 = Some x ∧ to_float p2 = Some y
      ∧ to_float p3 = Some nw ∧ to_float p4 = Some nh
      ∧ Yolo.CLASS_MAPPING !! class_no = Some cat
      ∧ o = Yolo.mkObject float cat (oid o) (Yolo.mkAttributes false false "none")
              (yolo_to_box2d x y nw nh img_width img_height).
Proof.
  rewrite elem_of_read_objects. split.
  - intros (line & Hl & Ho). apply object_of_line_Some in Ho
      as (p0 & p1 & p2 & p3 & p4 & c & x & y & nw & nh & cat & H).
    exists line, p0, p1, p2, p3, p4, c, x, y, nw, nh, cat. by split.
  - intros (line & p0 & p1 & p2 & p3 & p4 & c & x & y & nw & nh & cat
            & Hl & H).
    exists line. split; [done |]. apply object_of_line_Some.
    by exists p0, p1, p2, p3, p4, c, x, y, nw, nh, cat.
Qed.

Lemma length_omap_le {A B} (f : A → option B) (l : list A) :
  (length (omap f l) ≤ length l)%nat.
Proof.
  induction l as [|x l IH]; [done |]. cbn [omap list_omap].
  destruct (f x); cbn [length]; [apply le_n_S, IH | apply le_S, IH].
Qed.

Lemma StronglySorted_lt_NoDup (l : list nat) :
  StronglySorted lt l → NoDup l.
Proof.
  induction 1 as [|n ns Hs IH Hn]; constructor; [| done].
  intros Hin. rewrite Forall_forall in Hn. specialize (Hn _ Hin). lia.
Qed.

(** X15.  The objects are in the order of their lines: the identifiers increase
    strictly, so no two objects share one, and each is below the number of
    lines; there are at most as many objects as lines. *)
Theorem object_ids_increase (img_width img_height : Z)
    (lines : list string) :
  let objects_list := read_objects img_width img_height 0 lines [] in
  StronglySorted lt (oid <$> objects_list)
  ∧ NoDup (oid <$> objects_list)
  ∧ Forall (λ n, n < length lines)%nat (oid <$> objects_list)
  ∧ (length objects_list ≤ length lines)%nat.
Proof.
  intros objects_list. unfold objects_list.
  rewrite read_objects_spec, app_nil_l.
  destruct (read_objects_ids img_width img_height lines 0) as [Hs Hb].
  split; [exact Hs |]. split; [| split].
  - by apply StronglySorted_lt_NoDup.
  - eapply Forall_impl; [exact Hb |]. simpl. intros; lia.
  - rewrite length_fmap || idtac. etrans; [apply length_omap_le |].
    by rewrite length_imap.
Qed.

(** X16.  A label file gives no JSON structure exactly when its image does
    not exist, or does not open, or none of its lines is valid with the size
    of the image; the structure it gives otherwise has the base name of the
    file, the three undefined attributes and one frame of timestamp 10000
    with the objects of the valid lines, of which there is one at least. *)
Theorem convert_file_spec (path_exists : string → bool)
    (image_size : string → option (Z * Z))
    (base_name : string) (lines : list string) :
  (convert_file path_exists image_size base_name lines = None
   ↔ path_exists (Yolo.image_path base_name) = false
     ∨ image_size (Yolo.image_path base_name) = None
     ∨ ∃ img_width img_height,
         image_size (Yolo.image_path base_name)
         = Some (img_width, img_height)
         ∧ ∀ idx line, lines !! idx = Some line →
                       object_of_line img_width img_height idx line = None)
  ∧ ∀ a, convert_file path_exists image_size base_name lines = Some a →
      ∃ img_width img_height,
        path_exists (Yolo.image_path base_name) = true
        ∧ image_size (Yolo.image_path base_name)
          = Some (img_width, img_height)
        ∧ a = Yolo.mkAnnotation float base_name
                "undefined" "undefined" "undefined"
                [Yolo.mkFrame float 10000
                   (read_objects img_width img_height 0 lines [])]
        ∧ read_objects img_width img_height 0 lines [] ≠ [].
Proof.
  unfold Yolo.convert_file.
  destruct (path_exists (Yolo.image_path base_name)) eqn:Hpe; cbn [negb];
    [| split; [split; [by left | done] | done]].
  destruct (image_size (Yolo.image_path base_name)) as [[img_width img_height]|]
    eqn:Hsz; [| split; [split; [by (right; left) | done] | done]].
  split.
  - split.
    + intros Hnone. right. right. exists img_width, img_height.
      split; [done |]. intros idx line Hl.
      destruct (object_of_line img_width img_height idx line) as [o|] eqn:Ho;
        [| done].
      assert (o ∈ read_objects img_width img_height 0 lines []) as Hin.
      { apply elem_of_read_objects. exists line.
        by rewrite (object_of_line_id _ _ _ _ _ Ho). }
      destruct (read_objects img_width img_height 0 lines []);
        [by apply elem_of_nil in Hin | done].
    + intros [Hno | [Hno | (w' & h' & [= <- <-] & Hall)]]; [done | done |].
      destruct (read_objects img_width img_height 0 lines [])
        as [|o os] eqn:E; [done |].
      assert (o ∈ read_objects img_width img_height 0 lines []) as Hin
        by (rewrite E; left).
      apply elem_of_read_objects in Hin as (line & Hl & Ho).
      by rewrite (Hall _ _ Hl) in Ho.
  - intros a Ha. exists img_width, img_height.
    split; [done |]. split; [done |].
    destruct (read_objects img_width img_height 0 lines []) as [|o os];
      [done |].
    injection Ha as <-. done.
Qed.

End ConverterFacts.

Section Sandwich.
Import Img.

(** X5.  The cleaning turns on nothing that the closing alone would not: a
    sample that is on in the cleaned mask is on in the closing of the
    thresholded mask. *)
Theorem cleaned_mask_within_closing
    (hsv : Image) (lower upper : Pixel) (i j : nat) :
  is_on (make_mask hsv lower upper) i j = true →
  is_on (morphologyEx (inRange hsv lower upper) MORPH_CLOSE KERNEL 1) i j
  = true.
Proof.
  set (raw := inRange hsv lower upper).
  change (morphologyEx raw MORPH_CLOSE KERNEL 1)
    with (morph_pass Z.min 255 KERNEL (morph_pass Z.max 0 KERNEL raw)).
  rewrite make_mask_passes. fold raw.
  set (opened := morph_pass Z.max 0 KERNEL (morph_pass Z.min 255 KERNEL raw)).
  assert (∀ i j, option_Forall2 Z.le (at2 opened i j) (at2 raw i j)) as Hle.
  { intros i' j'. destruct (at2 raw i' j') as [v|] eqn:Hv.
    - assert (is_Some (at2 opened i' j')) as [o Ho].
      { unfold opened. rewrite !at2_morph_pass, Hv. by eexists. }
      rewrite Ho. constructor.
      apply (open_pass_le KERNEL KERNEL_symmetric raw i' j' v o Hv);
        [| exact Ho].
      by destruct (inRange_uint8 hsv lower upper i' j' v Hv).
    - unfold opened. rewrite !at2_morph_pass, Hv. constructor. }
  pose proof (morph_pass_mono KERNEL Z.min min_mono 255 _ _
                (morph_pass_mono KERNEL Z.max max_mono 0 _ _ Hle)) as Hcl.
  rewrite !is_on_spec. intros (v & Hv & Hpos).
  specialize (Hcl i j). rewrite Hv in Hcl. inversion Hcl as [? v' Hvv' |].
  exists v'. split; [done | lia].
Qed.

Lemma cleaned_mask_within_closing_witness :
  is_on (morphologyEx
           (inRange [[(25, 50, 130); (25, 50, 130)]] LANE_LOWER LANE_UPPER)
           MORPH_CLOSE KERNEL 1) 0 1
  = true.
Proof.
  apply (cleaned_mask_within_closing [[(25, 50, 130); (25, 50, 130)]]).
  reflexivity.
Defined.

End Sandwich.
